(** * A shallow embedding of [advanced-vector/vector.h]

    [RawMemory<T>] owns a span of raw slots, [Vector<T>] keeps the first
    [size_] of them constructed.  A slot is [None] while it holds no live
    object and [Some x] while it holds the live object [x].  Positions
    inside a block are slot numbers; an iterator is the signed distance from
    [begin()].  The allocator is taken to succeed.  Counts are natural
    numbers; [Allocate] takes the byte size [n * sizeof(T)] modulo [2^64],
    as the code does, so a count handed in by the caller ([Reserve],
    [Vector(size)]) can yield a block shorter than asked for.  The byte size
    of a block in memory is below [2^63], so the counts growth and copy
    construction derive from a live vector (its size, twice its size, 1) do
    not wrap: those blocks are built by [RawMemory_for_live]. *)

From stdpp Require Import base numbers option list gmap.

(** ** The element type

    [T] is a template parameter: what its special members do is a parameter
    of the model.  A constructor or an assignment either completes or
    throws, depending on the value it reads; a move leaves [moved_from x] in
    its source.  [is_nothrow_move_constructible] and [is_copy_constructible]
    are the type traits [CopyTo] tests; [is_trivially_copyable] says that
    assignment only copies bytes, so that it is defined on storage holding no
    object; [sizeof_T] is [sizeof(T)]. *)
Class Element (T : Type) : Type := {
  value_init : option T;
  copy_throws : T → bool;
  move_throws : T → bool;
  copy_assign_throws : T → bool;
  move_assign_throws : T → bool;
  moved_from : T → T;
  is_nothrow_move_constructible : bool;
  is_copy_constructible : bool;
  is_trivially_copyable : bool;
  sizeof_T : positive;
  nothrow_move_sound :
    is_nothrow_move_constructible = true → ∀ x, move_throws x = false
}.

(** ** Outcomes

    A call returns normally with a result and the state it leaves ([Done]),
    lets an exception escape with the state left after unwinding ([Throw]),
    or has no defined behaviour ([UB]: a write outside a block, a read or a
    destruction of a slot without a live object, an assignment to such a
    slot for a type that is not trivially copyable, a failed [assert], an
    inverted iterator range).  [destroyed] lists the objects whose
    destructor ran, in order. *)
Inductive outcome (T R S : Type) : Type :=
| Done (r : R) (s : S) (destroyed : list T)
| Throw (s : S) (destroyed : list T)
| UB.
Arguments Done {T R S} r s destroyed.
Arguments Throw {T R S} s destroyed.
Arguments UB {T R S}.

(** The two overloads of [PushBack] and of [Insert]: the argument is an
    lvalue ([const T&]) or an rvalue ([T&&]). *)
Inductive value_category : Type := lvalue | rvalue.

Record RawMemory (T : Type) : Type := mkRawMemory {
  buffer_ : list (option T);
  capacity_ : nat
}.
Arguments mkRawMemory {T} buffer_ capacity_.
Arguments buffer_ {T} r.
Arguments capacity_ {T} r.

Record Vector (T : Type) : Type := mkVector {
  data_ : RawMemory T;
  size_ : nat
}.
Arguments mkVector {T} data_ size_.
Arguments data_ {T} v.
Arguments size_ {T} v.

Section Model.
Context {T : Type} {E : Element T}.

Abbreviation buf := (list (option T)).

(** *** Single slots *)

(** Placement [new (p) T(x)]: needs storage at [i]. *)
Definition construct_at (b : buf) (i : nat) (x : T) : option buf :=
  if bool_decide (i < length b) then Some (<[i := Some x]> b) else None.

(** [*p = x]: [T::operator=] runs on the object under [p].  On a slot that
    holds no live object there is none to run it on; only for a trivially
    copyable [T], whose assignment copies bytes, does the slot then hold the
    assigned value. *)
Definition assign_at (b : buf) (i : nat) (x : T) : option buf :=
  match b !! i with
  | Some (Some _) => Some (<[i := Some x]> b)
  | Some None => if is_trivially_copyable then Some (<[i := Some x]> b) else None
  | None => None
  end.

(** Reading [*p]. *)
Definition read_at (b : buf) (i : nat) : option T :=
  match b !! i with
  | Some (Some x) => Some x
  | _ => None
  end.

(** [std::destroy_at(p)]. *)
Definition destroy_at (b : buf) (i : nat) : option (buf * T) :=
  match b !! i with
  | Some (Some x) => Some (<[i := None]> b, x)
  | _ => None
  end.

(** [std::destroy_n(first, n)]. *)
Fixpoint destroy_n (b : buf) (first n : nat) : option (buf * list T) :=
  match n with
  | 0 => Some (b, [])
  | S n' =>
      match destroy_at b first with
      | Some (b', x) =>
          match destroy_n b' (S first) n' with
          | Some (b'', l) => Some (b'', x :: l)
          | None => None
          end
      | None => None
      end
  end.

(** *** The [<memory>] and [<algorithm>] loops *)

(** The handler of the [uninitialized_*] algorithms: the [k] objects built
    so far are destroyed and the exception goes on. *)
Definition rollback (b : buf) (d_first k : nat) : outcome T unit buf :=
  match destroy_n b d_first k with
  | Some (b', l) => Throw b' l
  | None => UB
  end.

(** [std::uninitialized_value_construct_n(first, n)], [k] objects in. *)
Fixpoint uninitialized_value_construct_from
  (b : buf) (first k n : nat) : outcome T unit buf :=
  match n with
  | 0 => Done tt b []
  | S n' =>
      match value_init with
      | None => rollback b first k
      | Some d =>
          match construct_at b (first + k) d with
          | Some b' => uninitialized_value_construct_from b' first (S k) n'
          | None => UB
          end
      end
  end.

Definition uninitialized_value_construct_n (b : buf) (first n : nat) :=
  uninitialized_value_construct_from b first 0 n.

(** [std::uninitialized_copy_n(first, n, d_first)] between two blocks. *)
Fixpoint uninitialized_copy_from
  (src : buf) (first : nat) (dst : buf) (d_first k n : nat) : outcome T unit buf :=
  match n with
  | 0 => Done tt dst []
  | S n' =>
      match read_at src (first + k) with
      | Some x =>
          if copy_throws x then rollback dst d_first k
          else
            match construct_at dst (d_first + k) x with
            | Some dst' => uninitialized_copy_from src first dst' d_first (S k) n'
            | None => UB
            end
      | None => UB
      end
  end.

Definition uninitialized_copy_n (src : buf) (first n : nat) (dst : buf) (d_first : nat) :=
  uninitialized_copy_from src first dst d_first 0 n.

(** [std::uninitialized_move_n(first, n, d_first)]: the state is the pair
    (source block, destination block). *)
Fixpoint uninitialized_move_from
  (src : buf) (first : nat) (dst : buf) (d_first k n : nat) : outcome T unit (buf * buf) :=
  match n with
  | 0 => Done tt (src, dst) []
  | S n' =>
      match read_at src (first + k) with
      | Some x =>
          if move_throws x then
            match rollback dst d_first k with
            | Throw dst' l => Throw (src, dst') l
            | _ => UB
            end
          else
            match construct_at dst (d_first + k) x with
            | Some dst' =>
                uninitialized_move_from (<[first + k := Some (moved_from x)]> src)
                  first dst' d_first (S k) n'
            | None => UB
            end
      | None => UB
      end
  end.

Definition uninitialized_move_n (src : buf) (first n : nat) (dst : buf) (d_first : nat) :=
  uninitialized_move_from src first dst d_first 0 n.

(** [std::copy_n(first, n, d_first)]: copy assignment, returns the position
    after the last slot written. *)
Fixpoint copy_n (src : buf) (first n : nat) (dst : buf) (d_first : nat) : outcome T nat buf :=
  match n with
  | 0 => Done d_first dst []
  | S n' =>
      match read_at src first with
      | Some x =>
          match assign_at dst d_first x with
          | Some dst' =>
              if copy_assign_throws x then Throw dst []
              else copy_n src (S first) n' dst' (S d_first)
          | None => UB
          end
      | None => UB
      end
  end.

(** The loop of [std::move(first, last, d_first)] inside one block. *)
Fixpoint move_loop (b : buf) (first d_first n : nat) : outcome T unit buf :=
  match n with
  | 0 => Done tt b []
  | S n' =>
      match read_at b first with
      | Some x =>
          match assign_at b d_first x with
          | Some b' =>
              if move_assign_throws x then Throw b []
              else move_loop (<[first := Some (moved_from x)]> b') (S first) (S d_first) n'
          | None => UB
          end
      | None => UB
      end
  end.

(** [std::move(first, last, d_first)]; [first] past [last] is no range. *)
Definition std_move (b : buf) (first last d_first : nat) : outcome T unit buf :=
  if bool_decide (first ≤ last) then move_loop b first d_first (last - first) else UB.

(** The loop of [std::move_backward]: both iterators step back, then the
    object under [last] is move-assigned to the slot under [d_last]. *)
Fixpoint move_backward_loop (b : buf) (last d_last n : nat) {struct n}
  : outcome T unit buf :=
  match n with
  | 0 => Done tt b []
  | S n' =>
      match last, d_last with
      | S last', S d_last' =>
          match read_at b last' with
          | Some x =>
              match assign_at b d_last' x with
              | Some b' =>
                  if move_assign_throws x then Throw b []
                  else
                    move_backward_loop (<[last' := Some (moved_from x)]> b') last' d_last' n'
              | None => UB
              end
          | None => UB
          end
      | _, _ => UB
      end
  end.

Definition move_backward (b : buf) (first last d_last : nat) : outcome T unit buf :=
  if bool_decide (first ≤ last) then move_backward_loop b last d_last (last - first) else UB.

(** *** RawMemory *)

(** [size_t] has 64 bits. *)
Definition size_t_modulus : N := 2 ^ 64.

(** The byte size of [n] elements does not wrap. *)
Definition fits_size_t (n : nat) : Prop :=
  (N.of_nat n * Npos sizeof_T < size_t_modulus)%N.

(** The whole slots in a block of [n * sizeof(T)] bytes, the product being
    taken in [size_t]. *)
Definition requested_slots (n : nat) : nat :=
  N.to_nat (((N.of_nat n * Npos sizeof_T) `mod` size_t_modulus) `div` Npos sizeof_T)%N.

(** A block of [n] raw slots. *)
Definition raw_block (n : nat) : buf := replicate n None.

(** [Allocate(n)]: [operator new(n * sizeof(T))], no block for [n = 0]. *)
Definition Allocate (n : nat) : buf :=
  if bool_decide (n ≠ 0) then raw_block (requested_slots n) else [].

(** [RawMemory()] and [RawMemory(capacity)]: [capacity_] records the count
    asked for, the block has the slots its byte size pays for. *)
Definition RawMemory_default : RawMemory T := mkRawMemory [] 0.
Definition RawMemory_new (capacity : nat) : RawMemory T :=
  mkRawMemory (Allocate capacity) capacity.

(** [RawMemory(capacity)] where [capacity] is the size of a vector in
    memory, that size doubled, or 1 (growth, copy construction): the byte
    size fits, see [RawMemory_new_fits], and the block has [capacity]
    slots. *)
Definition RawMemory_for_live (capacity : nat) : RawMemory T :=
  mkRawMemory (raw_block capacity) capacity.

(** [operator+]: [assert(offset <= capacity_)]. *)
Definition RawMemory_plus (m : RawMemory T) (offset : nat) : option nat :=
  if bool_decide (offset ≤ capacity_ m) then Some offset else None.

(** [operator[]]: [assert(index < capacity_)]. *)
Definition RawMemory_index (m : RawMemory T) (index : nat) : option nat :=
  if bool_decide (index < capacity_ m) then Some index else None.

Definition RawMemory_Swap (m other : RawMemory T) : RawMemory T * RawMemory T :=
  (mkRawMemory (buffer_ other) (capacity_ other), mkRawMemory (buffer_ m) (capacity_ m)).

(** [data_] with the bytes of its block replaced. *)
Definition with_buffer (m : RawMemory T) (b : buf) : RawMemory T :=
  mkRawMemory b (capacity_ m).

(** *** Vector, as seen from one object *)

Definition Vector_default : Vector T := mkVector RawMemory_default 0.

Definition Size (v : Vector T) : nat := size_ v.
Definition Capacity (v : Vector T) : nat := capacity_ (data_ v).

(** The range [begin(), end()). *)
Definition elements (v : Vector T) : buf := take (size_ v) (buffer_ (data_ v)).

(** [operator[]]: [assert(index < size_)], then [data_[index]]. *)
Definition index (v : Vector T) (i : nat) : option T :=
  if bool_decide (i < size_ v) then
    match RawMemory_index (data_ v) i with
    | Some j => read_at (buffer_ (data_ v)) j
    | None => None
    end
  else None.

Definition set_block (v : Vector T) (b : buf) : Vector T :=
  mkVector (with_buffer (data_ v) b) (size_ v).

(** [~Vector()]: [destroy_n], then the block is released. *)
Definition Vector_destroy (v : Vector T) : option (list T) :=
  snd <$> destroy_n (buffer_ (data_ v)) 0 (size_ v).

(** [Vector(size)]. *)
Definition Vector_sized (size : nat) : outcome T (Vector T) unit :=
  let data := RawMemory_new size in
  match uninitialized_value_construct_n (buffer_ data) 0 size with
  | Done _ b l => Done (mkVector (with_buffer data b) size) tt l
  | Throw _ l => Throw tt l
  | UB => UB
  end.

(** [Vector(const Vector& other)]. *)
Definition Vector_copy (other : Vector T) : outcome T (Vector T) unit :=
  let data := RawMemory_for_live (size_ other) in
  match uninitialized_copy_n (buffer_ (data_ other)) 0 (size_ other) (buffer_ data) 0 with
  | Done _ b l => Done (mkVector (with_buffer data b) (size_ other)) tt l
  | Throw _ l => Throw tt l
  | UB => UB
  end.

Definition Vector_Swap (v other : Vector T) : Vector T * Vector T :=
  let '(d, od) := RawMemory_Swap (data_ v) (data_ other) in
  (mkVector d (size_ other), mkVector od (size_ v)).

(** The [if constexpr] condition of [CopyTo]. *)
Definition relocate_by_move : bool :=
  is_nothrow_move_constructible || negb is_copy_constructible.

(** [CopyTo(new_data, from, to, pos)]: the state is the vector and the
    block it fills. *)
Definition CopyTo (v : Vector T) (new_data : RawMemory T) (from to pos : nat)
  : outcome T unit (Vector T * RawMemory T) :=
  if relocate_by_move then
    match uninitialized_move_n (buffer_ (data_ v)) from (to - from) (buffer_ new_data) pos with
    | Done _ (src, dst) l => Done tt (set_block v src, with_buffer new_data dst) l
    | Throw (src, dst) l => Throw (set_block v src, with_buffer new_data dst) l
    | UB => UB
    end
  else
    match uninitialized_copy_n (buffer_ (data_ v)) from (to - from) (buffer_ new_data) pos with
    | Done _ dst l => Done tt (v, with_buffer new_data dst) l
    | Throw dst l => Throw (v, with_buffer new_data dst) l
    | UB => UB
    end.

(** [SwapCopy(new_data)]. *)
Definition SwapCopy (v : Vector T) (new_data : RawMemory T)
  : outcome T unit (Vector T * RawMemory T) :=
  match CopyTo v new_data 0 (size_ v) 0 with
  | Done _ (v1, nd) l =>
      match destroy_n (buffer_ (data_ v1)) 0 (size_ v1) with
      | Some (b, l') =>
          let '(d, nd') := RawMemory_Swap (with_buffer (data_ v1) b) nd in
          Done tt (mkVector d (size_ v1), nd') (l ++ l')
      | None => UB
      end
  | Throw s l => Throw s l
  | UB => UB
  end.

Definition Reserve (new_capacity : nat) (v : Vector T) : outcome T unit (Vector T) :=
  if bool_decide (new_capacity ≤ capacity_ (data_ v)) then Done tt v []
  else
    let new_data := RawMemory_new new_capacity in
    match SwapCopy v new_data with
    | Done _ (v', _) l => Done tt v' l
    | Throw (v', _) l => Throw v' l
    | UB => UB
    end.

Definition Resize (new_size : nat) (v : Vector T) : outcome T unit (Vector T) :=
  if bool_decide (new_size < size_ v) then
    match destroy_n (buffer_ (data_ v)) new_size (size_ v - new_size) with
    | Some (b, l) => Done tt (mkVector (with_buffer (data_ v) b) new_size) l
    | None => UB
    end
  else
    match Reserve new_size v with
    | Done _ v1 l =>
        match uninitialized_value_construct_n (buffer_ (data_ v1)) new_size (new_size - size_ v1) with
        | Done _ b l' => Done tt (mkVector (with_buffer (data_ v1) b) new_size) (l ++ l')
        | Throw b l' => Throw (set_block v1 b) (l ++ l')
        | UB => UB
        end
    | Throw v1 l => Throw v1 l
    | UB => UB
    end.

(** [EmplaceBack(args...)]: [args] is what [T(args...)] yields, [None] when
    it throws.  The reference returned is the slot number. *)
Definition EmplaceBack (args : option T) (v : Vector T) : outcome T nat (Vector T) :=
  let finish (v1 : Vector T) (l : list T) :=
    let v2 := mkVector (data_ v1) (S (size_ v1)) in
    match RawMemory_index (data_ v2) (size_ v2 - 1) with
    | Some r => Done r v2 l
    | None => UB
    end in
  if bool_decide (size_ v = Capacity v) then
    let new_data := RawMemory_for_live (if bool_decide (size_ v = 0) then 1 else size_ v * 2) in
    match RawMemory_plus new_data (size_ v) with
    | Some p =>
        match args with
        | Some x =>
            match construct_at (buffer_ new_data) p x with
            | Some b =>
                match SwapCopy v (with_buffer new_data b) with
                | Done _ (v1, _) l => finish v1 l
                | Throw (v1, _) l => Throw v1 l
                | UB => UB
                end
            | None => UB
            end
        | None => Throw v []
        end
    | None => UB
    end
  else
    match RawMemory_plus (data_ v) (size_ v) with
    | Some p =>
        match args with
        | Some x =>
            match construct_at (buffer_ (data_ v)) p x with
            | Some b => finish (set_block v b) []
            | None => UB
            end
        | None => Throw v []
        end
    | None => UB
    end.

(** [T(value)] and [T(std::move(value))] as constructor arguments. *)
Definition by_copy (value : T) : option T :=
  if copy_throws value then None else Some value.
Definition by_move (value : T) : option T :=
  if move_throws value then None else Some value.

Definition drop_result {R S : Type} (o : outcome T R S) : outcome T unit S :=
  match o with
  | Done _ s l => Done tt s l
  | Throw s l => Throw s l
  | UB => UB
  end.

(** [PushBack(const T&)] and [PushBack(T&&)]. *)
Definition PushBack (value : T) (v : Vector T) : outcome T unit (Vector T) :=
  drop_result (EmplaceBack (by_copy value) v).
Definition PushBack_rvalue (value : T) (v : Vector T) : outcome T unit (Vector T) :=
  drop_result (EmplaceBack (by_move value) v).

(** The constructor that builds the new element from an argument of the
    given category throws, and the overload of [PushBack] that takes it. *)
Definition construct_throws (c : value_category) (value : T) : bool :=
  match c with
  | lvalue => copy_throws value
  | rvalue => move_throws value
  end.
Definition PushBack_of (c : value_category) (value : T) (v : Vector T)
  : outcome T unit (Vector T) :=
  match c with
  | lvalue => PushBack value v
  | rvalue => PushBack_rvalue value v
  end.

Definition PopBack (v : Vector T) : outcome T unit (Vector T) :=
  if bool_decide (size_ v = 0) then Done tt v []
  else
    match destroy_at (buffer_ (data_ v)) (size_ v - 1) with
    | Some (b, x) => Done tt (mkVector (with_buffer (data_ v) b) (size_ v - 1)) [x]
    | None => UB
    end.

(** [pos >= begin() && pos <= end()]. *)
Definition in_range (pos : Z) (v : Vector T) : bool :=
  bool_decide (0 ≤ pos)%Z && bool_decide (pos ≤ Z.of_nat (size_ v))%Z.

(** [Emplace(pos, args...)]; the iterator returned is relative to the
    [begin()] of the vector left behind. *)
Definition Emplace (pos : Z) (args : option T) (v : Vector T) : outcome T Z (Vector T) :=
  if in_range pos v then
    let idx := Z.to_nat pos in
    let finish (v1 : Vector T) (l : list T) :=
      Done (Z.of_nat idx) (mkVector (data_ v1) (S (size_ v1))) l in
    if bool_decide (size_ v = capacity_ (data_ v)) then
      let new_data := RawMemory_for_live (if bool_decide (size_ v = 0) then 1 else size_ v * 2) in
      match RawMemory_plus new_data idx, args with
      | None, _ => UB
      | Some _, None => Throw v []
      | Some p, Some x =>
          match construct_at (buffer_ new_data) p x with
          | None => UB
          | Some b =>
              match CopyTo v (with_buffer new_data b) 0 idx 0 with
              | UB => UB
              | Throw (v1, nd) l =>
                  match RawMemory_plus nd idx with
                  | Some q =>
                      match destroy_at (buffer_ nd) q with
                      | Some (_, y) => Throw v1 (l ++ [y])
                      | None => UB
                      end
                  | None => UB
                  end
              | Done _ (v1, nd) l =>
                  match CopyTo v1 nd idx (size_ v1) (idx + 1) with
                  | UB => UB
                  | Throw (v2, nd') l' =>
                      match destroy_n (buffer_ nd') 0 (idx + 1) with
                      | Some (_, l'') => Throw v2 (l ++ l' ++ l'')
                      | None => UB
                      end
                  | Done _ (v2, nd') l' =>
                      match destroy_n (buffer_ (data_ v2)) 0 (size_ v2) with
                      | Some (b2, l'') =>
                          let '(d, _) := RawMemory_Swap (with_buffer (data_ v2) b2) nd' in
                          finish (mkVector d (size_ v2)) (l ++ l' ++ l'')
                      | None => UB
                      end
                  end
              end
          end
      end
    else
      match args with
      | None => Throw v []
      | Some tmp =>
          match move_backward (buffer_ (data_ v)) idx (size_ v) (size_ v + 1) with
          | UB => UB
          | Throw b l => Throw (set_block v b) (l ++ [tmp])
          | Done _ b l =>
              let v1 := set_block v b in
              match RawMemory_plus (data_ v1) idx with
              | None => UB
              | Some p =>
                  if move_throws tmp then Throw v1 (l ++ [tmp])
                  else
                    match construct_at (buffer_ (data_ v1)) p tmp with
                    | Some b' => finish (set_block v1 b') (l ++ [moved_from tmp])
                    | None => UB
                    end
              end
          end
      end
  else Done (Z.of_nat (size_ v)) v [].

(** [Insert(pos, const T&)] and [Insert(pos, T&&)]. *)
Definition Insert (pos : Z) (value : T) (v : Vector T) : outcome T Z (Vector T) :=
  Emplace pos (by_copy value) v.
Definition Insert_rvalue (pos : Z) (value : T) (v : Vector T) : outcome T Z (Vector T) :=
  Emplace pos (by_move value) v.

(** The overload of [Insert] for an argument of the given category. *)
Definition Insert_of (c : value_category) (pos : Z) (value : T) (v : Vector T)
  : outcome T Z (Vector T) :=
  match c with
  | lvalue => Insert pos value v
  | rvalue => Insert_rvalue pos value v
  end.

Definition Erase (pos : Z) (v : Vector T) : outcome T Z (Vector T) :=
  if in_range pos v then
    let idx := Z.to_nat pos in
    match RawMemory_plus (data_ v) idx with
    | None => UB
    | Some p =>
        match destroy_at (buffer_ (data_ v)) p with
        | None => UB
        | Some (b, x) =>
            match std_move b (idx + 1) (size_ v) idx with
            | UB => UB
            | Throw b' l => Throw (set_block v b') (x :: l)
            | Done _ b' l =>
                Done (Z.of_nat idx) (mkVector (with_buffer (data_ v) b') (size_ v - 1)) (x :: l)
            end
        end
    end
  else Done (Z.of_nat (size_ v)) v [].

(** [CopyFrom(rhs)], with [rhs] another object. *)
Definition CopyFrom (rhs : Vector T) (v : Vector T) : outcome T unit (Vector T) :=
  let cp_size := size_ v `min` size_ rhs in
  match copy_n (buffer_ (data_ rhs)) 0 cp_size (buffer_ (data_ v)) 0 with
  | UB => UB
  | Throw b l => Throw (set_block v b) l
  | Done it b l =>
      if bool_decide (size_ rhs < size_ v) then
        match destroy_n b it (size_ v - cp_size) with
        | Some (b', l') => Done tt (mkVector (with_buffer (data_ v) b') (size_ rhs)) (l ++ l')
        | None => UB
        end
      else
        match uninitialized_copy_n (buffer_ (data_ rhs)) cp_size (size_ rhs - cp_size) b it with
        | Done _ b' l' => Done tt (mkVector (with_buffer (data_ v) b') (size_ rhs)) (l ++ l')
        | Throw b' l' => Throw (set_block v b') (l ++ l')
        | UB => UB
        end
  end.

(** *** Objects with an address

    [operator=] and [Swap] take a second vector by reference and compare
    addresses; a store maps addresses to the vectors living there. *)

Definition Swap (this other : nat) (σ : gmap nat (Vector T)) : outcome T unit (gmap nat (Vector T)) :=
  match σ !! this, σ !! other with
  | Some a, Some b =>
      let '(a', b') := Vector_Swap a b in
      Done tt (<[this := a']> (<[other := b']> σ)) []
  | _, _ => UB
  end.

(** [Vector(Vector&& other)] building the object at [this]. *)
Definition move_construct (this other : nat) (σ : gmap nat (Vector T))
  : outcome T unit (gmap nat (Vector T)) :=
  Swap this other (<[this := Vector_default]> σ).

(** [operator=(const Vector& rhs)]. *)
Definition copy_assign (this rhs : nat) (σ : gmap nat (Vector T))
  : outcome T unit (gmap nat (Vector T)) :=
  if bool_decide (this ≠ rhs) then
    match σ !! this, σ !! rhs with
    | Some a, Some b =>
        if bool_decide (capacity_ (data_ a) < size_ b) then
          match Vector_copy b with
          | Done rhs_copy _ l =>
              let '(a', rhs_copy') := Vector_Swap a rhs_copy in
              match Vector_destroy rhs_copy' with
              | Some l' => Done tt (<[this := a']> σ) (l ++ l')
              | None => UB
              end
          | Throw _ l => Throw σ l
          | UB => UB
          end
        else
          match CopyFrom b a with
          | Done _ a' l => Done tt (<[this := a']> σ) l
          | Throw a' l => Throw (<[this := a']> σ) l
          | UB => UB
          end
    | _, _ => UB
    end
  else Done tt σ [].

(** [operator=(Vector&& rhs)]. *)
Definition move_assign (this rhs : nat) (σ : gmap nat (Vector T))
  : outcome T unit (gmap nat (Vector T)) :=
  if bool_decide (this ≠ rhs) then Swap this rhs σ else Done tt σ [].

(** *** The data-model invariant and what a caller observes *)

(** What relocating [x] to a new block may throw and what it leaves in the
    old slot. *)
Definition relocate_throws (x : T) : bool :=
  if relocate_by_move then move_throws x else copy_throws x.
Definition relocated (x : T) : T :=
  if relocate_by_move then moved_from x else x.

(** The live objects of [v], front to back. *)
Definition values (v : Vector T) : list T := omap id (elements v).

(** [0 <= size <= capacity], the block has [capacity] slots, and every slot
    of [[0, size)] holds a live object. *)
Definition invariant (v : Vector T) : Prop :=
  capacity_ (data_ v) = length (buffer_ (data_ v)) ∧
  size_ v ≤ capacity_ (data_ v) ∧
  ∀ i, i < size_ v → is_Some (read_at (buffer_ (data_ v)) i).

End Model.

(** [c] is the least power of two that is at least [k]. *)
Definition least_pow2_ge (c k : nat) : Prop :=
  (∃ e, c = 2 ^ e) ∧ k ≤ c ∧ ∀ e, k ≤ 2 ^ e → c ≤ 2 ^ e.

(** Where the doubling policy keeps size and capacity: both zero, or the
    capacity a power of two with [capacity / 2 < size <= capacity]. *)
Definition doubling {T : Type} (v : Vector T) : Prop :=
  (size_ v = 0 ∧ Capacity v = 0) ∨
  (∃ e, Capacity v = 2 ^ e ∧ size_ v ≤ Capacity v ∧ Capacity v < 2 * size_ v).

(** ** Element types used in the scenarios *)

(** [int]: trivially copyable, value-initialised to zero. *)
Definition int_element : Element Z := {|
  value_init := Some 0%Z;
  copy_throws := λ _, false;
  move_throws := λ _, false;
  copy_assign_throws := λ _, false;
  move_assign_throws := λ _, false;
  moved_from := λ x, x;
  is_nothrow_move_constructible := true;
  is_copy_constructible := true;
  is_trivially_copyable := true;
  sizeof_T := 4;
  nothrow_move_sound := λ _ _, eq_refl
|}.

(** A copyable type whose copy constructor throws on the value 13 and whose
    move constructor is not declared [noexcept]: relocated by copy. *)
Definition throwing_copy_element : Element Z := {|
  value_init := Some 0%Z;
  copy_throws := λ x, bool_decide (x = 13%Z);
  move_throws := λ _, false;
  copy_assign_throws := λ _, false;
  move_assign_throws := λ _, false;
  moved_from := λ _, 0%Z;
  is_nothrow_move_constructible := false;
  is_copy_constructible := true;
  is_trivially_copyable := false;
  sizeof_T := 4;
  nothrow_move_sound := λ H, match Bool.diff_false_true H with end
|}.

(** A move-only type whose move constructor throws on the value 13 and
    leaves 0 behind otherwise: relocated by move. *)
Definition throwing_move_element : Element Z := {|
  value_init := Some 0%Z;
  copy_throws := λ _, false;
  move_throws := λ x, bool_decide (x = 13%Z);
  copy_assign_throws := λ _, false;
  move_assign_throws := λ _, false;
  moved_from := λ _, 0%Z;
  is_nothrow_move_constructible := false;
  is_copy_constructible := false;
  is_trivially_copyable := false;
  sizeof_T := 4;
  nothrow_move_sound := λ H, match Bool.diff_false_true H with end
|}.

(** A class type holding an [int], with user-provided special members none
    of which throws: not trivially copyable. *)
Definition class_element : Element Z := {|
  value_init := Some 0%Z;
  copy_throws := λ _, false;
  move_throws := λ _, false;
  copy_assign_throws := λ _, false;
  move_assign_throws := λ _, false;
  moved_from := λ x, x;
  is_nothrow_move_constructible := true;
  is_copy_constructible := true;
  is_trivially_copyable := false;
  sizeof_T := 4;
  nothrow_move_sound := λ _ _, eq_refl
|}.

(** A type whose default constructor throws. *)
Definition throwing_default_element : Element Z := {|
  value_init := None;
  copy_throws := λ _, false;
  move_throws := λ _, false;
  copy_assign_throws := λ _, false;
  move_assign_throws := λ _, false;
  moved_from := λ x, x;
  is_nothrow_move_constructible := true;
  is_copy_constructible := true;
  is_trivially_copyable := false;
  sizeof_T := 4;
  nothrow_move_sound := λ _ _, eq_refl
|}.

(** A type whose copy assignment throws on the value 13 and whose move
    assignment throws on the value 2; a move leaves 0 behind. *)
Definition throwing_assign_element : Element Z := {|
  value_init := Some 0%Z;
  copy_throws := λ _, false;
  move_throws := λ _, false;
  copy_assign_throws := λ x, bool_decide (x = 13%Z);
  move_assign_throws := λ x, bool_decide (x = 2%Z);
  moved_from := λ _, 0%Z;
  is_nothrow_move_constructible := true;
  is_copy_constructible := true;
  is_trivially_copyable := false;
  sizeof_T := 4;
  nothrow_move_sound := λ _ _, eq_refl
|}.

(** A trivially copyable type of [2 ^ 61] bytes, such as a structure around
    an array of that many [char]: eight of them take [2 ^ 64] bytes. *)
Definition huge_element : Element Z := {|
  value_init := Some 0%Z;
  copy_throws := λ _, false;
  move_throws := λ _, false;
  copy_assign_throws := λ _, false;
  move_assign_throws := λ _, false;
  moved_from := λ x, x;
  is_nothrow_move_constructible := true;
  is_copy_constructible := true;
  is_trivially_copyable := true;
  sizeof_T := 2 ^ 61;
  nothrow_move_sound := λ _ _, eq_refl
|}.

(** Vectors of the scenarios: [[1,2,3]] with capacity 4, [[1,13]] with
    capacity 2, and an empty vector over a block of six slots. *)
Definition v_1_2_3 : Vector Z :=
  mkVector (mkRawMemory [Some 1; Some 2; Some 3; None]%Z 4) 3.
Definition v_1_13 : Vector Z :=
  mkVector (mkRawMemory [Some 1; Some 13]%Z 2) 2.
Definition v_reserved_6 : Vector Z :=
  mkVector (mkRawMemory (replicate 6 None) 6) 0.

(** Stores of the scenarios, with objects at the addresses 1 and 2. *)
Definition store_123_113 : gmap nat (Vector Z) := <[1 := v_1_2_3]> (<[2 := v_1_13]> ∅).
Definition store_empty_113 : gmap nat (Vector Z) :=
  <[1 := Vector_default]> (<[2 := v_1_13]> ∅).
Definition store_only_123 : gmap nat (Vector Z) := <[2 := v_1_2_3]> ∅.
Definition store_113_123 : gmap nat (Vector Z) := <[1 := v_1_13]> (<[2 := v_1_2_3]> ∅).

(** A run of calls on one object: stops at the first that does not return. *)
Fixpoint run {T S : Type} (ops : list (S → outcome T unit S)) (s : S) : outcome T unit S :=
  match ops with
  | [] => Done tt s []
  | op :: ops' =>
      match op s with
      | Done _ s1 l =>
          match run ops' s1 with
          | Done _ s2 l' => Done tt s2 (l ++ l')
          | Throw s2 l' => Throw s2 (l ++ l')
          | UB => UB
          end
      | Throw s1 l => Throw s1 l
      | UB => UB
      end
  end.

(** ** The loops, when nothing throws *)

Section Loops.
Context {T : Type} {E : Element T}.
Implicit Types (b src dst : list (option T)) (x : T).

Lemma read_at_Some b i x : read_at b i = Some x ↔ b !! i = Some (Some x).
Proof.
  unfold read_at. destruct (b !! i) as [[y|]|]; split; intros; simplify_eq; done.
Qed.

Lemma read_at_lt b i : is_Some (read_at b i) → i < length b.
Proof.
  intros [x Hx%read_at_Some]. by apply lookup_lt_Some in Hx.
Qed.

Lemma read_at_insert_ne b i j (o : option T) : i ≠ j → read_at (<[i := o]> b) j = read_at b j.
Proof. intros. unfold read_at. by rewrite list_lookup_insert_ne. Qed.

Lemma read_at_insert_eq b i x : i < length b → read_at (<[i := Some x]> b) i = Some x.
Proof. intros. unfold read_at. by rewrite list_lookup_insert_eq. Qed.

Lemma construct_at_Some b i x :
  i < length b → construct_at b i x = Some (<[i := Some x]> b).
Proof. intros. unfold construct_at. by rewrite bool_decide_eq_true_2. Qed.

Lemma assign_at_ok b i x :
  i < length b →
  is_trivially_copyable = true ∨ is_Some (read_at b i) →
  assign_at b i x = Some (<[i := Some x]> b).
Proof.
  intros Hi Hok. unfold assign_at, read_at in *.
  destruct (lookup_lt_is_Some_2 b i Hi) as [o Ho]. rewrite Ho in *.
  destruct o as [y|]; [done|]. destruct Hok as [->|[? ?]]; done.
Qed.

Lemma assign_at_live b i x :
  is_Some (read_at b i) → assign_at b i x = Some (<[i := Some x]> b).
Proof. intros Hl. apply assign_at_ok; [by apply read_at_lt | by right]. Qed.

Lemma assign_at_nontrivial b i x :
  is_trivially_copyable = false → read_at b i = None → assign_at b i x = None.
Proof.
  intros Hnt Hr. unfold assign_at, read_at in *.
  destruct (b !! i) as [[y|]|]; [done| by rewrite Hnt | done].
Qed.

Lemma destroy_at_Some b i x :
  read_at b i = Some x → destroy_at b i = Some (<[i := None]> b, x).
Proof. intros Hx%read_at_Some. unfold destroy_at. by rewrite Hx. Qed.

Lemma destroy_n_ok n : ∀ b first,
  (∀ j, first ≤ j < first + n → is_Some (read_at b j)) →
  ∃ b' l, destroy_n b first n = Some (b', l) ∧
    length b' = length b ∧ length l = n ∧
    (∀ j, j < n → l !! j = read_at b (first + j)) ∧
    (∀ i, first ≤ i < first + n → b' !! i = Some None) ∧
    (∀ i, ¬ (first ≤ i < first + n) → b' !! i = b !! i).
Proof.
  induction n as [|n IH]; intros b first Hlive; simpl.
  - exists b, []. repeat split; auto; intros; lia.
  - destruct (Hlive first) as [x Hx]; [lia|].
    rewrite (destroy_at_Some _ _ _ Hx).
    destruct (IH (<[first := None]> b) (S first)) as (b' & l & -> & Hlen & Hl & Hlog & Hin & Hout).
    { intros j Hj. rewrite read_at_insert_ne by lia. apply Hlive. lia. }
    exists b', (x :: l). rewrite length_insert in Hlen.
    repeat split; simpl; auto.
    + intros [|j] Hj; simpl.
      * by rewrite Nat.add_0_r.
      * rewrite Hlog by lia. rewrite read_at_insert_ne by lia. f_equal. lia.
    + intros i Hi. destruct (decide (i = first)) as [->|].
      * rewrite Hout by lia. apply list_lookup_insert_eq.
        apply read_at_lt. eauto.
      * apply Hin. lia.
    + intros i Hi. rewrite Hout by lia. apply list_lookup_insert_ne. lia.
Qed.

Lemma uninitialized_value_construct_from_ok d first n : ∀ k b,
  value_init = Some d →
  first + k + n ≤ length b →
  ∃ b', uninitialized_value_construct_from b first k n = Done tt b' [] ∧
    length b' = length b ∧
    (∀ i, first + k ≤ i < first + k + n → b' !! i = Some (Some d)) ∧
    (∀ i, ¬ (first + k ≤ i < first + k + n) → b' !! i = b !! i).
Proof.
  induction n as [|n IH]; intros k b Hd Hlen; simpl.
  - exists b. repeat split; auto; intros; lia.
  - rewrite Hd, construct_at_Some by lia.
    destruct (IH (S k) (<[first + k := Some d]> b)) as (b' & -> & Hl & Hin & Hout);
      [done | rewrite length_insert; lia |].
    rewrite length_insert in Hl. exists b'. repeat split; auto.
    + intros i Hi. destruct (decide (i = first + k)) as [->|].
      * rewrite Hout by lia. apply list_lookup_insert_eq. lia.
      * apply Hin. lia.
    + intros i Hi. rewrite Hout by lia. apply list_lookup_insert_ne. lia.
Qed.

Lemma uninitialized_copy_from_ok src first d_first n : ∀ k dst,
  (∀ j, k ≤ j < k + n →
     ∃ x, read_at src (first + j) = Some x ∧ copy_throws x = false) →
  d_first + k + n ≤ length dst →
  ∃ dst', uninitialized_copy_from src first dst d_first k n = Done tt dst' [] ∧
    length dst' = length dst ∧
    (∀ j, k ≤ j < k + n → dst' !! (d_first + j) = src !! (first + j)) ∧
    (∀ i, ¬ (d_first + k ≤ i < d_first + k + n) → dst' !! i = dst !! i).
Proof.
  induction n as [|n IH]; intros k dst Hsrc Hlen; simpl.
  - exists dst. repeat split; auto; intros; lia.
  - destruct (Hsrc k) as (x & Hx & Hnt); [lia|].
    rewrite Hx, Hnt, construct_at_Some by lia.
    destruct (IH (S k) (<[d_first + k := Some x]> dst)) as (dst' & -> & Hl & Hin & Hout).
    { intros j Hj. apply Hsrc. lia. }
    { rewrite length_insert. lia. }
    rewrite length_insert in Hl. exists dst'. repeat split; auto.
    + intros j Hj. destruct (decide (j = k)) as [->|].
      * rewrite Hout by lia. rewrite list_lookup_insert_eq by lia.
        symmetry. by apply read_at_Some.
      * apply Hin. lia.
    + intros i Hi. rewrite Hout by lia. apply list_lookup_insert_ne. lia.
Qed.

(** The copy that throws is number [k0]: the loop ends in the handler, with
    the [k0] copies made so far in place. *)
Lemma uninitialized_copy_from_throw src first d_first n : ∀ k dst k0 y,
  k ≤ k0 < k + n →
  (∀ j, k ≤ j < k0 →
     ∃ x, read_at src (first + j) = Some x ∧ copy_throws x = false) →
  read_at src (first + k0) = Some y → copy_throws y = true →
  d_first + k0 ≤ length dst →
  ∃ dst1, uninitialized_copy_from src first dst d_first k n = rollback dst1 d_first k0 ∧
    length dst1 = length dst ∧
    (∀ j, k ≤ j < k0 → dst1 !! (d_first + j) = src !! (first + j)) ∧
    (∀ i, ¬ (d_first + k ≤ i < d_first + k0) → dst1 !! i = dst !! i).
Proof.
  induction n as [|n IH]; intros k dst k0 y Hk Hsrc Hy Hthrow Hlen; [lia|]. simpl.
  destruct (decide (k = k0)) as [->|Hne].
  - rewrite Hy, Hthrow. exists dst. repeat split; auto; intros; lia.
  - destruct (Hsrc k) as (x & Hx & Hnt); [lia|].
    rewrite Hx, Hnt, construct_at_Some by lia.
    destruct (IH (S k) (<[d_first + k := Some x]> dst) k0 y) as (dst1 & -> & Hl & Hin & Hout);
      [lia | intros; apply Hsrc; lia | done | done | rewrite length_insert; lia |].
    rewrite length_insert in Hl. exists dst1. repeat split; auto.
    + intros j Hj. destruct (decide (j = k)) as [->|].
      * rewrite Hout by lia. rewrite list_lookup_insert_eq by lia.
        symmetry. by apply read_at_Some.
      * apply Hin. lia.
    + intros i Hi. rewrite Hout by lia. apply list_lookup_insert_ne. lia.
Qed.

Lemma uninitialized_move_from_ok first d_first n : ∀ k src dst,
  (∀ j, k ≤ j < k + n →
     ∃ x, read_at src (first + j) = Some x ∧ move_throws x = false) →
  d_first + k + n ≤ length dst →
  ∃ src' dst', uninitialized_move_from src first dst d_first k n = Done tt (src', dst') [] ∧
    length src' = length src ∧ length dst' = length dst ∧
    (∀ j, k ≤ j < k + n → dst' !! (d_first + j) = src !! (first + j)) ∧
    (∀ i, ¬ (d_first + k ≤ i < d_first + k + n) → dst' !! i = dst !! i) ∧
    (∀ j x, k ≤ j < k + n → read_at src (first + j) = Some x →
       src' !! (first + j) = Some (Some (moved_from x))) ∧
    (∀ i, ¬ (first + k ≤ i < first + k + n) → src' !! i = src !! i).
Proof.
  induction n as [|n IH]; intros k src dst Hsrc Hlen; simpl.
  - exists src, dst. repeat split; auto; intros; lia.
  - destruct (Hsrc k) as (x & Hx & Hnt); [lia|].
    rewrite Hx, Hnt, construct_at_Some by lia.
    pose proof (read_at_lt src (first + k) (ex_intro _ x Hx)) as Hlt.
    destruct (IH (S k) (<[first + k := Some (moved_from x)]> src) (<[d_first + k := Some x]> dst))
      as (src' & dst' & -> & Hls & Hld & Hin & Hout & Hsin & Hsout).
    { intros j Hj. rewrite read_at_insert_ne by lia. apply Hsrc. lia. }
    { rewrite length_insert. lia. }
    rewrite length_insert in Hls, Hld. exists src', dst'. repeat split; auto.
    + intros j Hj. destruct (decide (j = k)) as [->|].
      * rewrite Hout by lia. rewrite list_lookup_insert_eq by lia.
        symmetry. by apply read_at_Some.
      * rewrite Hin by lia. apply list_lookup_insert_ne. lia.
    + intros i Hi. rewrite Hout by lia. apply list_lookup_insert_ne. lia.
    + intros j z Hj Hz. destruct (decide (j = k)) as [->|].
      * rewrite Hsout by lia. rewrite list_lookup_insert_eq by lia. congruence.
      * apply Hsin; [lia|]. by rewrite read_at_insert_ne by lia.
    + intros i Hi. rewrite Hsout by lia. apply list_lookup_insert_ne. lia.
Qed.

(** The move that throws is number [k0]. *)
Lemma uninitialized_move_from_throw first d_first n : ∀ k src dst k0 y,
  k ≤ k0 < k + n →
  (∀ j, k ≤ j < k0 →
     ∃ x, read_at src (first + j) = Some x ∧ move_throws x = false) →
  read_at src (first + k0) = Some y → move_throws y = true →
  d_first + k0 ≤ length dst →
  ∃ src1 dst1,
    uninitialized_move_from src first dst d_first k n =
      match rollback dst1 d_first k0 with
      | Throw dst' l => Throw (src1, dst') l
      | _ => UB
      end ∧
    length src1 = length src ∧ length dst1 = length dst ∧
    (∀ j, k ≤ j < k0 → dst1 !! (d_first + j) = src !! (first + j)) ∧
    (∀ i, ¬ (d_first + k ≤ i < d_first + k0) → dst1 !! i = dst !! i) ∧
    (∀ j x, k ≤ j < k0 → read_at src (first + j) = Some x →
       src1 !! (first + j) = Some (Some (moved_from x))) ∧
    (∀ i, ¬ (first + k ≤ i < first + k0) → src1 !! i = src !! i).
Proof.
  induction n as [|n IH]; intros k src dst k0 y Hk Hsrc Hy Hthrow Hlen; [lia|]. simpl.
  destruct (decide (k = k0)) as [->|Hne].
  - rewrite Hy, Hthrow. exists src, dst. repeat split; auto; intros; lia.
  - destruct (Hsrc k) as (x & Hx & Hnt); [lia|].
    rewrite Hx, Hnt, construct_at_Some by lia.
    pose proof (read_at_lt src (first + k) (ex_intro _ x Hx)) as Hlt.
    destruct (IH (S k) (<[first + k := Some (moved_from x)]> src)
                (<[d_first + k := Some x]> dst) k0 y)
      as (src1 & dst1 & -> & Hls & Hld & Hin & Hout & Hsin & Hsout).
    { lia. }
    { intros j Hj. rewrite read_at_insert_ne by lia. apply Hsrc. lia. }
    { by rewrite read_at_insert_ne by lia. }
    { done. }
    { rewrite length_insert. lia. }
    rewrite length_insert in Hls, Hld. exists src1, dst1. repeat split; auto.
    + intros j Hj. destruct (decide (j = k)) as [->|].
      * rewrite Hout by lia. rewrite list_lookup_insert_eq by lia.
        symmetry. by apply read_at_Some.
      * rewrite Hin by lia. apply list_lookup_insert_ne. lia.
    + intros i Hi. rewrite Hout by lia. apply list_lookup_insert_ne. lia.
    + intros j z Hj Hz. destruct (decide (j = k)) as [->|].
      * rewrite Hsout by lia. rewrite list_lookup_insert_eq by lia. congruence.
      * apply Hsin; [lia|]. by rewrite read_at_insert_ne by lia.
    + intros i Hi. rewrite Hsout by lia. apply list_lookup_insert_ne. lia.
Qed.

Lemma copy_n_ok src n : ∀ first dst d_first,
  (∀ j, j < n →
     ∃ x, read_at src (first + j) = Some x ∧ copy_assign_throws x = false) →
  (∀ j, j < n → is_Some (read_at dst (d_first + j))) →
  d_first + n ≤ length dst →
  ∃ dst', copy_n src first n dst d_first = Done (d_first + n) dst' [] ∧
    length dst' = length dst ∧
    (∀ j, j < n → dst' !! (d_first + j) = src !! (first + j)) ∧
    (∀ i, ¬ (d_first ≤ i < d_first + n) → dst' !! i = dst !! i).
Proof.
  induction n as [|n IH]; intros first dst d_first Hsrc Hdst Hlen; simpl.
  - exists dst. rewrite Nat.add_0_r. repeat split; auto; intros; lia.
  - destruct (Hsrc 0) as (x & Hx & Hnt); [lia|]. rewrite Nat.add_0_r in Hx.
    pose proof (Hdst 0 ltac:(lia)) as Hd0. rewrite Nat.add_0_r in Hd0.
    rewrite Hx, (assign_at_live _ _ _ Hd0), Hnt.
    destruct (IH (S first) (<[d_first := Some x]> dst) (S d_first)) as (dst' & -> & Hl & Hin & Hout).
    { intros j Hj. replace (S first + j) with (first + S j) by lia. apply Hsrc. lia. }
    { intros j Hj. rewrite read_at_insert_ne by lia.
      replace (S d_first + j) with (d_first + S j) by lia. apply Hdst. lia. }
    { rewrite length_insert. lia. }
    rewrite length_insert in Hl. exists dst'. split; [f_equal; lia|]. repeat split; auto.
    + intros [|j] Hj.
      * rewrite !Nat.add_0_r, Hout by lia. rewrite list_lookup_insert_eq by lia.
        symmetry. by apply read_at_Some.
      * replace (d_first + S j) with (S d_first + j) by lia.
        replace (first + S j) with (S first + j) by lia. apply Hin. lia.
    + intros i Hi. rewrite Hout by lia. apply list_lookup_insert_ne. lia.
Qed.

(** [std::move] one slot to the left, as [Erase] calls it. *)
Lemma move_loop_left_ok n : ∀ b d,
  (∀ j, j < n →
     ∃ x, read_at b (S d + j) = Some x ∧ move_assign_throws x = false) →
  n = 0 ∨ is_trivially_copyable = true ∨ is_Some (read_at b d) →
  ∃ b', move_loop b (S d) d n = Done tt b' [] ∧
    length b' = length b ∧
    (∀ j, j < n → b' !! (d + j) = b !! (S d + j)) ∧
    (∀ i, i < d → b' !! i = b !! i) ∧
    (∀ i, d + n < i → b' !! i = b !! i).
Proof.
  induction n as [|n IH]; intros b d Hsrc Hdst; simpl.
  - exists b. repeat split; auto; intros; lia.
  - destruct (Hsrc 0) as (x & Hx & Hnt); [lia|]. rewrite Nat.add_0_r in Hx.
    pose proof (read_at_lt b (S d) (ex_intro _ x Hx)) as Hlt.
    rewrite Hx, (assign_at_ok b d x), Hnt; [|lia|by destruct Hdst as [?|?]; [lia|]].
    destruct (IH (<[S d := Some (moved_from x)]> (<[d := Some x]> b)) (S d))
      as (b' & -> & Hl & Hin & Hlo & Hhi).
    { intros j Hj. rewrite !read_at_insert_ne by lia.
      replace (S (S d) + j) with (S d + S j) by lia. apply Hsrc. lia. }
    { right; right. rewrite read_at_insert_eq by (rewrite length_insert; lia). by eexists. }
    rewrite !length_insert in Hl. exists b'. repeat split; auto.
    + intros [|j] Hj.
      * rewrite !Nat.add_0_r, Hlo by lia.
        rewrite list_lookup_insert_ne, list_lookup_insert_eq by lia.
        symmetry. by apply read_at_Some.
      * replace (d + S j) with (S d + j) by lia. rewrite Hin by lia.
        rewrite !list_lookup_insert_ne by lia. f_equal; lia.
    + intros i Hi. rewrite Hlo by lia. by rewrite !list_lookup_insert_ne by lia.
    + intros i Hi. rewrite Hhi by lia. by rewrite !list_lookup_insert_ne by lia.
Qed.

(** [std::move_backward] one slot to the right, as [Emplace] calls it. *)
Lemma move_backward_loop_right_ok n : ∀ b last,
  n ≤ last → S last ≤ length b →
  (∀ j, last - n ≤ j < last →
     ∃ x, read_at b j = Some x ∧ move_assign_throws x = false) →
  n = 0 ∨ is_trivially_copyable = true ∨ is_Some (read_at b last) →
  ∃ b', move_backward_loop b last (S last) n = Done tt b' [] ∧
    length b' = length b ∧
    (∀ j, last - n ≤ j < last → b' !! (S j) = b !! j) ∧
    (∀ i, i < last - n → b' !! i = b !! i) ∧
    (∀ i, last < i → b' !! i = b !! i).
Proof.
  induction n as [|n IH]; intros b last Hn Hlen Hsrc Hdst; cbn [move_backward_loop].
  - exists b. repeat split; auto; intros; lia.
  - destruct last as [|last]; [lia|].
    destruct (Hsrc last) as (x & Hx & Hnt); [lia|].
    rewrite Hx, (assign_at_ok b (S last) x), Hnt; [|lia|by destruct Hdst as [?|?]; [lia|]].
    destruct (IH (<[last := Some (moved_from x)]> (<[S last := Some x]> b)) last)
      as (b' & -> & Hl & Hin & Hlo & Hhi).
    { lia. }
    { rewrite !length_insert. lia. }
    { intros j Hj. rewrite !read_at_insert_ne by lia. apply Hsrc. lia. }
    { right; right. rewrite read_at_insert_eq by (rewrite length_insert; lia). by eexists. }
    rewrite !length_insert in Hl. exists b'. repeat split; auto.
    + intros j Hj. destruct (decide (j = last)) as [->|].
      * rewrite Hhi by lia.
        rewrite list_lookup_insert_ne, list_lookup_insert_eq by lia.
        symmetry. by apply read_at_Some.
      * rewrite Hin by lia. by rewrite !list_lookup_insert_ne by lia.
    + intros i Hi. rewrite Hlo by lia. by rewrite !list_lookup_insert_ne by lia.
    + intros i Hi. rewrite Hhi by lia. by rewrite !list_lookup_insert_ne by lia.
Qed.

End Loops.

(** ** Lists described slot by slot *)

Section ListSplice.
Context {A : Type}.
Implicit Types (l : list A).

Lemma snoc_by_lookup l l' x :
  length l' = S (length l) →
  (∀ i, i < length l → l' !! i = l !! i) →
  l' !! length l = Some x →
  l' = l ++ [x].
Proof.
  intros Hlen Hlo Hx. apply list_eq. intros i.
  destruct (decide (i < length l)) as [Hi|Hi].
  - rewrite lookup_app_l by done. by apply Hlo.
  - rewrite lookup_app_r by lia. destruct (decide (i = length l)) as [->|].
    + by rewrite Nat.sub_diag.
    + rewrite !lookup_ge_None_2; [done| simpl; lia | lia].
Qed.

Lemma insert_middle_by_lookup l l' idx x :
  idx ≤ length l →
  length l' = S (length l) →
  (∀ i, i < idx → l' !! i = l !! i) →
  l' !! idx = Some x →
  (∀ i, idx ≤ i < length l → l' !! S i = l !! i) →
  l' = take idx l ++ x :: drop idx l.
Proof.
  intros Hidx Hlen Hlo Hx Hhi. apply list_eq. intros i.
  assert (length (take idx l) = idx) as Htk by (rewrite length_take; lia).
  destruct (decide (i < idx)) as [Hi|Hi].
  - rewrite lookup_app_l by lia. rewrite lookup_take_lt by done. by apply Hlo.
  - rewrite lookup_app_r by lia. rewrite Htk.
    destruct (i - idx) as [|k] eqn:Hk.
    + assert (i = idx) as -> by lia. done.
    + simpl. rewrite lookup_drop. assert (i = S (idx + k)) as -> by lia.
      destruct (decide (idx + k < length l)).
      * apply Hhi. lia.
      * rewrite !lookup_ge_None_2; [done | lia | lia].
Qed.

Lemma delete_by_lookup l l' idx :
  idx < length l →
  S (length l') = length l →
  (∀ i, i < idx → l' !! i = l !! i) →
  (∀ i, idx ≤ i < length l' → l' !! i = l !! S i) →
  l' = delete idx l.
Proof.
  intros Hidx Hlen Hlo Hhi. apply list_eq. intros i.
  destruct (decide (i < idx)) as [Hi|Hi].
  - rewrite list_lookup_delete_lt by done. by apply Hlo.
  - rewrite list_lookup_delete_ge by lia.
    destruct (decide (i < length l')).
    + apply Hhi. lia.
    + rewrite !lookup_ge_None_2; [done | lia | lia].
Qed.

Lemma is_Some_omap_id (l : list (option A)) :
  Forall is_Some l → l = Some <$> omap id l.
Proof.
  induction 1 as [|o l [x ->] _ IH]; [done|]. cbn. f_equal. exact IH.
Qed.

End ListSplice.

(** ** The invariant and the observed values *)

Section Observe.
Context {T : Type} {E : Element T}.
Implicit Types (v : Vector T) (x : T).

Lemma elements_lookup v i :
  elements v !! i = if decide (i < size_ v) then buffer_ (data_ v) !! i else None.
Proof. apply lookup_take. Qed.

Lemma invariant_elements v : invariant v → elements v = Some <$> values v.
Proof.
  intros (Hcap & Hsz & Hlive). apply is_Some_omap_id, Forall_lookup.
  intros i o Ho. rewrite elements_lookup in Ho. case_decide; [|done].
  destruct (Hlive i) as [x Hx%read_at_Some]; [done|]. rewrite Hx in Ho. by simplify_eq.
Qed.

Lemma values_length v : invariant v → length (values v) = size_ v.
Proof.
  intros Hinv. pose proof (f_equal length (invariant_elements v Hinv)) as Hl.
  rewrite length_fmap in Hl. rewrite <-Hl. unfold elements. rewrite length_take.
  destruct Hinv as (? & ? & _). lia.
Qed.

Lemma values_lookup v i :
  invariant v →
  values v !! i = if decide (i < size_ v) then read_at (buffer_ (data_ v)) i else None.
Proof.
  intros Hinv. pose proof (f_equal (.!! i) (invariant_elements v Hinv)) as Hl.
  simpl in Hl. rewrite elements_lookup, list_lookup_fmap in Hl. unfold read_at.
  case_decide.
  - rewrite Hl. by destruct (values v !! i).
  - by destruct (values v !! i).
Qed.

Lemma values_Forall (P : T → Prop) v :
  invariant v → Forall P (values v) →
  ∀ i x, i < size_ v → read_at (buffer_ (data_ v)) i = Some x → P x.
Proof.
  intros Hinv HP i x Hi Hx. eapply Forall_lookup_1; [exact HP|].
  rewrite values_lookup by done. by rewrite decide_True.
Qed.

Lemma invariant_read v i :
  invariant v → i < size_ v →
  ∃ x, read_at (buffer_ (data_ v)) i = Some x ∧ values v !! i = Some x.
Proof.
  intros Hinv Hi. destruct Hinv as (Hc & Hs & Hlive).
  destruct (Hlive i Hi) as [x Hx]. exists x. split; [done|].
  rewrite values_lookup by done. by rewrite decide_True.
Qed.

Lemma Vector_default_invariant : invariant (T := T) Vector_default.
Proof. repeat split; simpl; [lia|]. intros; lia. Qed.

End Observe.

(** ** Relocation and the appending operations *)

Section Append.
Context {T : Type} {E : Element T}.
Implicit Types (v : Vector T) (x : T).

Lemma CopyTo_ok v nd from to pos :
  from ≤ to →
  (∀ j, from ≤ j < to →
     ∃ x, read_at (buffer_ (data_ v)) j = Some x ∧ relocate_throws x = false) →
  pos + (to - from) ≤ length (buffer_ nd) →
  ∃ v' nd', CopyTo v nd from to pos = Done tt (v', nd') [] ∧
    size_ v' = size_ v ∧ capacity_ (data_ v') = capacity_ (data_ v) ∧
    length (buffer_ (data_ v')) = length (buffer_ (data_ v)) ∧
    capacity_ nd' = capacity_ nd ∧ length (buffer_ nd') = length (buffer_ nd) ∧
    (∀ j, from ≤ j < to → buffer_ nd' !! (pos + (j - from)) = buffer_ (data_ v) !! j) ∧
    (∀ i, ¬ (pos ≤ i < pos + (to - from)) → buffer_ nd' !! i = buffer_ nd !! i) ∧
    (∀ i, is_Some (read_at (buffer_ (data_ v)) i) → is_Some (read_at (buffer_ (data_ v')) i)) ∧
    (∀ i, ¬ (from ≤ i < to) → buffer_ (data_ v') !! i = buffer_ (data_ v) !! i).
Proof.
  intros Hft Hsrc Hlen. unfold CopyTo, relocate_throws in *.
  destruct relocate_by_move.
  - unfold uninitialized_move_n.
    destruct (uninitialized_move_from_ok from pos (to - from) 0 (buffer_ (data_ v)) (buffer_ nd))
      as (src' & dst' & -> & Hls & Hld & Hin & Hout & Hsin & Hsout).
    { intros j Hj. apply Hsrc. lia. }
    { lia. }
    eexists _, _. split; [reflexivity|]. simpl. repeat split; auto.
    + intros j Hj. rewrite Hin by lia. f_equal. lia.
    + intros i Hi. apply Hout. lia.
    + intros i [x Hx]. destruct (decide (from ≤ i < to)) as [Hi|Hi].
      * exists (moved_from x). apply read_at_Some.
        replace i with (from + (i - from)) by lia. apply Hsin; [lia|].
        by replace (from + (i - from)) with i by lia.
      * exists x. apply read_at_Some. rewrite Hsout by lia. by apply read_at_Some.
    + intros i Hi. apply Hsout. lia.
  - unfold uninitialized_copy_n.
    destruct (uninitialized_copy_from_ok (buffer_ (data_ v)) from pos (to - from) 0 (buffer_ nd))
      as (dst' & -> & Hld & Hin & Hout).
    { intros j Hj. apply Hsrc. lia. }
    { lia. }
    eexists _, _. split; [reflexivity|]. simpl. repeat split; auto.
    + intros j Hj. rewrite Hin by lia. f_equal. lia.
    + intros i Hi. apply Hout. lia.
Qed.

Lemma SwapCopy_ok v nd :
  invariant v →
  Forall (λ y, relocate_throws y = false) (values v) →
  size_ v ≤ length (buffer_ nd) →
  ∃ v' nd' l, SwapCopy v nd = Done tt (v', nd') l ∧
    size_ v' = size_ v ∧ capacity_ (data_ v') = capacity_ nd ∧
    length (buffer_ (data_ v')) = length (buffer_ nd) ∧
    (∀ i, i < size_ v → buffer_ (data_ v') !! i = buffer_ (data_ v) !! i) ∧
    (∀ i, size_ v ≤ i → buffer_ (data_ v') !! i = buffer_ nd !! i).
Proof.
  intros Hinv Hnt Hlen. unfold SwapCopy.
  destruct (CopyTo_ok v nd 0 (size_ v) 0)
    as (v1 & nd1 & -> & Hs & Hc & Hl & Hnc & Hnl & Hin & Hout & Hlive & _).
  { lia. }
  { intros j Hj. destruct (invariant_read v j) as (x & Hx & _); [done|lia|].
    exists x. split; [done|].
    apply (values_Forall (λ y, relocate_throws y = false) v Hinv Hnt j x); [lia|done]. }
  { lia. }
  destruct (destroy_n_ok (size_ v1) (buffer_ (data_ v1)) 0) as (b & l & -> & _).
  { intros j Hj. apply Hlive. destruct Hinv as (_ & _ & Hv). apply Hv. lia. }
  simpl. eexists _, _, _. split; [reflexivity|]. simpl. repeat split; auto.
  - intros i Hi. specialize (Hin i). rewrite Nat.sub_0_r in Hin. apply Hin. lia.
  - intros i Hi. apply Hout. lia.
Qed.

Lemma requested_slots_fits n : fits_size_t n → requested_slots n = n.
Proof.
  unfold fits_size_t, requested_slots. intros Hfit.
  rewrite N.mod_small by done. rewrite N.div_mul by done. apply Nat2N.id.
Qed.

Lemma requested_slots_le n : requested_slots n ≤ n.
Proof.
  assert ((((N.of_nat n * Npos sizeof_T) `mod` size_t_modulus) `div` Npos sizeof_T
           ≤ N.of_nat n)%N) as Hle.
  { rewrite <-(N.div_mul (N.of_nat n) (Npos sizeof_T)) at 2 by done.
    apply N.Div0.div_le_mono, N.Div0.mod_le. }
  unfold requested_slots. lia.
Qed.

Lemma requested_slots_0 : requested_slots 0 = 0.
Proof. pose proof (requested_slots_le 0). lia. Qed.

Lemma Allocate_length n : length (Allocate n) = requested_slots n.
Proof.
  unfold Allocate, raw_block. case_bool_decide as Hn; [by rewrite length_replicate|].
  assert (n = 0) as -> by lia. by rewrite requested_slots_0.
Qed.

Lemma RawMemory_new_fits n : fits_size_t n → RawMemory_new n = RawMemory_for_live n.
Proof.
  intros Hfit. unfold RawMemory_new, RawMemory_for_live, Allocate.
  rewrite requested_slots_fits by done. case_bool_decide as Hn; [done|].
  by assert (n = 0) as -> by lia.
Qed.

Lemma Reserve_ok new_capacity v :
  invariant v →
  Forall (λ y, relocate_throws y = false) (values v) →
  (Capacity v < new_capacity → fits_size_t new_capacity) →
  ∃ v' l, Reserve new_capacity v = Done tt v' l ∧
    invariant v' ∧ size_ v' = size_ v ∧ values v' = values v ∧
    Capacity v' = (if bool_decide (new_capacity ≤ Capacity v) then Capacity v else new_capacity).
Proof.
  intros Hinv Hnt Hfit. unfold Reserve, Capacity in *. case_bool_decide as Hcap.
  { by exists v, []. }
  pose proof Hinv as (Hc & Hs & Hlive).
  pose proof (requested_slots_fits new_capacity ltac:(apply Hfit; lia)) as Hslots.
  destruct (SwapCopy_ok v (RawMemory_new new_capacity))
    as (v' & nd' & l & -> & Hs' & Hc' & Hl' & Hlo & Hhi); [done|done|..].
  { simpl. rewrite Allocate_length. lia. }
  simpl in *. rewrite Allocate_length, Hslots in Hl'.
  assert (invariant v') as Hinv'.
  { repeat split; [lia|lia|]. intros i Hi. unfold read_at. rewrite Hlo by lia.
    apply Hlive. lia. }
  exists v', l. split_and!; try done.
  apply list_eq. intros i. rewrite !values_lookup by done. rewrite Hs'.
  case_decide; [|done]. unfold read_at. by rewrite Hlo.
Qed.

Lemma EmplaceBack_ok x v :
  invariant v →
  Forall (λ y, relocate_throws y = false) (values v) →
  ∃ v' l, EmplaceBack (Some x) v = Done (size_ v) v' l ∧
    invariant v' ∧ size_ v' = S (size_ v) ∧ values v' = values v ++ [x] ∧
    Capacity v' =
      (if bool_decide (Size v = Capacity v) then 1 `max` (2 * Size v) else Capacity v).
Proof.
  intros Hinv Hnt. pose proof Hinv as (Hc & Hs & Hlive).
  unfold EmplaceBack, Capacity, Size, RawMemory_plus, RawMemory_index.
  assert (∀ v', invariant v' → size_ v' = S (size_ v) →
    (∀ i, i < size_ v → buffer_ (data_ v') !! i = buffer_ (data_ v) !! i) →
    buffer_ (data_ v') !! size_ v = Some (Some x) →
    values v' = values v ++ [x]) as Hvals.
  { intros v' Hinv' Hs' Hlo Hx. apply snoc_by_lookup.
    - rewrite !values_length by done. lia.
    - intros i. rewrite !values_length, !values_lookup by done. intros Hi.
      rewrite !decide_True by lia. unfold read_at. by rewrite Hlo.
    - rewrite values_length, values_lookup by done. rewrite decide_True by lia.
      by apply read_at_Some. }
  case_bool_decide as Hfull.
  - set (c := if bool_decide (size_ v = 0) then 1 else size_ v * 2).
    assert (c = 1 `max` (2 * size_ v) ∧ size_ v < c) as [Hcmax Hclt].
    { unfold c. case_bool_decide; lia. }
    simpl. rewrite bool_decide_eq_true_2 by lia.
    rewrite construct_at_Some by (unfold raw_block; rewrite length_replicate; lia).
    destruct (SwapCopy_ok v (with_buffer (RawMemory_for_live c) (<[size_ v := Some x]> (raw_block c))))
      as (v' & nd' & l & -> & Hs' & Hc' & Hl' & Hlo & Hhi); [done|done|..].
    { simpl. unfold raw_block. rewrite length_insert, length_replicate. lia. }
    simpl in *. unfold raw_block in *. rewrite length_insert, length_replicate in Hl'.
    rewrite Hs', Hc'. rewrite bool_decide_eq_true_2 by lia.
    rewrite ?Nat.sub_0_r.
    assert (buffer_ (data_ v') !! size_ v = Some (Some x)) as Hx.
    { rewrite Hhi by lia. apply list_lookup_insert_eq. rewrite length_replicate. lia. }
    assert (invariant (mkVector (data_ v') (S (size_ v)))) as Hinv'.
    { repeat split; simpl; [lia|lia|]. intros i Hi.
      destruct (decide (i = size_ v)) as [->|].
      - exists x. by apply read_at_Some.
      - unfold read_at. rewrite Hlo by lia. apply Hlive. lia. }
    eexists _, _. split; [reflexivity|]. split_and!; try done.
    + by apply Hvals.
    + simpl. lia.
  - simpl. rewrite bool_decide_eq_true_2 by lia.
    rewrite construct_at_Some by lia. simpl.
    rewrite bool_decide_eq_true_2 by lia.
    rewrite ?Nat.sub_0_r.
    assert (invariant (mkVector (with_buffer (data_ v) (<[size_ v := Some x]> (buffer_ (data_ v))))
                         (S (size_ v)))) as Hinv'.
    { repeat split; simpl; [by rewrite length_insert|lia|]. intros i Hi.
      destruct (decide (i = size_ v)) as [->|].
      - exists x. apply read_at_insert_eq. lia.
      - rewrite read_at_insert_ne by lia. apply Hlive. lia. }
    eexists _, _. split; [reflexivity|]. split_and!; try done.
    apply Hvals; simpl; try done.
    + intros i Hi. apply list_lookup_insert_ne. lia.
    + apply list_lookup_insert_eq. lia.
Qed.

End Append.

(** ** Capacity under repeated [PushBack] *)

Section Growth.
Context {T : Type} {E : Element T}.
Implicit Types (v : Vector T) (x : T).

Lemma PushBack_ok x v :
  invariant v →
  copy_throws x = false →
  Forall (λ y, relocate_throws y = false) (values v) →
  ∃ v' l, PushBack x v = Done tt v' l ∧
    invariant v' ∧ size_ v' = S (size_ v) ∧ values v' = values v ++ [x] ∧
    Capacity v' =
      (if bool_decide (Size v = Capacity v) then 1 `max` (2 * Size v) else Capacity v).
Proof.
  intros Hinv Hx Hnt. unfold PushBack, by_copy. rewrite Hx.
  destruct (EmplaceBack_ok x v Hinv Hnt) as (v' & l & -> & ?). by exists v', l.
Qed.

Lemma doubling_step v v' :
  doubling v →
  size_ v ≤ Capacity v →
  size_ v' = S (size_ v) →
  Capacity v' =
    (if bool_decide (Size v = Capacity v) then 1 `max` (2 * Size v) else Capacity v) →
  doubling v'.
Proof.
  unfold Size. intros [[Hs Hc]|(e & He & Hle & Hlt)] Hsc Hs' Hc'; right.
  - exists 0. rewrite Hc'. rewrite bool_decide_eq_true_2 by lia. simpl. lia.
  - assert (2 ^ e ≠ 0) by (apply Nat.pow_nonzero; lia).
    case_bool_decide as Hfull.
    + exists (S e). rewrite Nat.pow_succ_r'. lia.
    + exists e. lia.
Qed.

Lemma doubling_least v :
  doubling v → size_ v ≠ 0 → least_pow2_ge (Capacity v) (size_ v).
Proof.
  intros [[Hs _]|(e & He & Hle & Hlt)] Hne; [done|].
  split; [by exists e|]. split; [done|]. intros e' He'. rewrite He.
  apply Nat.pow_le_mono_r; [lia|].
  assert (2 ^ e < 2 ^ S e') as Hpow by (rewrite Nat.pow_succ_r'; lia).
  apply Nat.pow_lt_mono_r_iff in Hpow; lia.
Qed.

Lemma PushBack_of_ok c x v :
  invariant v →
  construct_throws c x = false →
  Forall (λ y, relocate_throws y = false) (values v) →
  ∃ v' l, PushBack_of c x v = Done tt v' l ∧
    invariant v' ∧ size_ v' = S (size_ v) ∧ values v' = values v ++ [x] ∧
    Capacity v' =
      (if bool_decide (Size v = Capacity v) then 1 `max` (2 * Size v) else Capacity v).
Proof.
  intros Hinv Hx Hnt.
  destruct c; simpl in *; unfold PushBack, PushBack_rvalue, by_copy, by_move; rewrite Hx;
    destruct (EmplaceBack_ok x v Hinv Hnt) as (v' & l & -> & ?); by exists v', l.
Qed.

Lemma run_PushBack_of_ok (ps : list (value_category * T)) : ∀ v,
  invariant v → doubling v →
  Forall (λ p, construct_throws p.1 p.2 = false ∧ relocate_throws p.2 = false) ps →
  Forall (λ y, relocate_throws y = false) (values v) →
  ∃ v' l, run ((λ p, PushBack_of p.1 p.2) <$> ps) v = Done tt v' l ∧
    invariant v' ∧ doubling v' ∧ values v' = values v ++ ps.*2.
Proof.
  induction ps as [|[c x] ps IH]; intros v Hinv Hdbl Hps Hnt.
  - exists v, []. by rewrite app_nil_r.
  - rewrite !fmap_cons. cbn [run fst snd].
    apply Forall_cons in Hps as [[Hcp Hrl] Hps]. simpl in Hcp, Hrl.
    destruct (PushBack_of_ok c x v Hinv Hcp Hnt) as (v1 & l1 & -> & Hinv1 & Hs1 & Hv1 & Hc1).
    destruct (IH v1) as (v' & l' & -> & Hinv' & Hdbl' & Hv'); try done.
    + eapply doubling_step; eauto. by destruct Hinv as (_ & ? & _).
    + rewrite Hv1. apply Forall_app. split; [done|]. by apply Forall_singleton.
    + exists v', (l1 ++ l'). split_and!; try done.
      by rewrite Hv', Hv1, <-app_assoc.
Qed.

End Growth.

(** ** Insertion and removal inside the range *)

Section InsertErase.
Context {T : Type} {E : Element T}.
Implicit Types (v : Vector T) (x : T).

Lemma in_range_true pos v : (0 ≤ pos ≤ Z.of_nat (size_ v))%Z → in_range pos v = true.
Proof.
  intros [? ?]. unfold in_range. by rewrite !bool_decide_eq_true_2.
Qed.

Lemma in_range_false pos v :
  (pos < 0 ∨ Z.of_nat (size_ v) < pos)%Z → in_range pos v = false.
Proof.
  intros Hout. unfold in_range. apply andb_false_iff.
  destruct Hout; [left|right]; apply bool_decide_eq_false_2; lia.
Qed.

(** What both paths of [Emplace] leave in the block, read as values. *)
Lemma inserted_by_lookup v v' idx x :
  invariant v → idx ≤ size_ v →
  capacity_ (data_ v') = length (buffer_ (data_ v')) →
  S (size_ v) ≤ capacity_ (data_ v') →
  size_ v' = S (size_ v) →
  (∀ i, i < idx → buffer_ (data_ v') !! i = buffer_ (data_ v) !! i) →
  buffer_ (data_ v') !! idx = Some (Some x) →
  (∀ j, idx ≤ j < size_ v → buffer_ (data_ v') !! S j = buffer_ (data_ v) !! j) →
  invariant v' ∧ values v' = take idx (values v) ++ x :: drop idx (values v).
Proof.
  intros Hinv Hidx Hc Hs Hs' Hlo Hx Hhi. pose proof Hinv as (_ & _ & Hlive).
  assert (invariant v') as Hinv'.
  { split_and!; [done|lia|]. intros i Hi. unfold read_at.
    destruct (decide (i < idx)); [rewrite Hlo by done; apply Hlive; lia|].
    destruct (decide (i = idx)) as [->|]; [by rewrite Hx|].
    destruct i as [|j]; [lia|]. rewrite Hhi by lia. apply Hlive. lia. }
  split; [done|]. apply insert_middle_by_lookup.
  - rewrite values_length by done. lia.
  - rewrite !values_length by done. lia.
  - intros i Hi. rewrite !values_lookup by done. rewrite !decide_True by lia.
    unfold read_at. by rewrite Hlo.
  - rewrite values_lookup by done. rewrite decide_True by lia. by apply read_at_Some.
  - intros i. rewrite values_length by done. intros Hi.
    rewrite !values_lookup by done. rewrite !decide_True by lia.
    unfold read_at. by rewrite Hhi.
Qed.

Lemma Emplace_ok pos x v :
  invariant v →
  (0 ≤ pos ≤ Z.of_nat (size_ v))%Z →
  Forall (λ y, relocate_throws y = false ∧ move_assign_throws y = false) (values v) →
  move_throws x = false →
  is_trivially_copyable = true ∨ size_ v = capacity_ (data_ v) ∨
    pos = Z.of_nat (size_ v) →
  ∃ v' l, Emplace pos (Some x) v = Done pos v' l ∧
    invariant v' ∧ size_ v' = S (size_ v) ∧
    values v' = take (Z.to_nat pos) (values v) ++ x :: drop (Z.to_nat pos) (values v).
Proof.
  intros Hinv Hpos Hnt Hmx Hassign. pose proof Hinv as (Hc & Hs & Hlive).
  unfold Emplace. rewrite in_range_true by done.
  set (idx := Z.to_nat pos). assert (idx ≤ size_ v) as Hidx by lia.
  assert (Z.of_nat idx = pos) as Hback by lia. rewrite Hback.
  assert (∀ j, j < size_ v → ∃ y, read_at (buffer_ (data_ v)) j = Some y ∧
            relocate_throws y = false ∧ move_assign_throws y = false) as Hread.
  { intros j Hj. destruct (Hlive j Hj) as [y Hy]. exists y. split; [done|].
    by apply (values_Forall _ v Hinv Hnt j y). }
  case_bool_decide as Hfull.
  - set (c := if bool_decide (size_ v = 0) then 1 else size_ v * 2).
    assert (size_ v < c) as Hclt by (unfold c; case_bool_decide; lia).
    unfold RawMemory_plus. simpl. rewrite bool_decide_eq_true_2 by lia.
    rewrite construct_at_Some by (unfold raw_block; rewrite length_replicate; lia).
    set (nd0 := with_buffer (RawMemory_for_live c) (<[idx := Some x]> (raw_block c))).
    assert (length (buffer_ nd0) = c) as Hl0.
    { simpl. unfold raw_block. by rewrite length_insert, length_replicate. }
    destruct (CopyTo_ok v nd0 0 idx 0)
      as (v1 & nd1 & -> & Hs1 & Hc1 & Hl1 & Hnc1 & Hnl1 & Hin1 & Hout1 & Hlive1 & Hsame1).
    { lia. }
    { intros j Hj. destruct (Hread j) as (y & ? & ? & _); [lia|]. by exists y. }
    { lia. }
    destruct (CopyTo_ok v1 nd1 idx (size_ v1) (idx + 1))
      as (v2 & nd2 & -> & Hs2 & Hc2 & Hl2 & Hnc2 & Hnl2 & Hin2 & Hout2 & Hlive2 & _).
    { lia. }
    { intros j Hj. destruct (Hread j) as (y & Hy & ? & _); [lia|]. exists y.
      split; [|done]. unfold read_at. rewrite Hsame1 by lia. exact Hy. }
    { lia. }
    destruct (destroy_n_ok (size_ v2) (buffer_ (data_ v2)) 0) as (b2 & l2 & -> & _).
    { intros j Hj. apply Hlive2, Hlive1, Hlive. lia. }
    assert (capacity_ nd2 = c) as Hcap2 by (by rewrite Hnc2, Hnc1).
    assert (length (buffer_ nd2) = c) as Hlen2 by (by rewrite Hnl2, Hnl1).
    simpl. rewrite Hs2, Hs1.
    match goal with
    | |- ∃ v' l, Done _ ?V ?L = _ ∧ _ =>
        exists V, L; split; [reflexivity|];
        destruct (inserted_by_lookup v V idx x) as [Hinv' Hvals]; simpl; try done; try lia
    end.
    + intros i Hi. rewrite Hout2 by lia. specialize (Hin1 i).
      rewrite Nat.sub_0_r in Hin1. apply Hin1. lia.
    + rewrite Hout2, Hout1 by lia. apply list_lookup_insert_eq.
      unfold raw_block. rewrite length_replicate. lia.
    + intros j Hj. replace (S j) with (idx + 1 + (j - idx)) by lia.
      rewrite Hin2 by lia. apply Hsame1. lia.
  - assert (size_ v < capacity_ (data_ v)) as Hroom by lia.
    unfold move_backward. rewrite bool_decide_eq_true_2 by lia.
    rewrite Nat.add_1_r.
    destruct (move_backward_loop_right_ok (size_ v - idx) (buffer_ (data_ v)) (size_ v))
      as (b' & -> & Hl & Hin & Hlo & Hhi).
    { lia. }
    { lia. }
    { intros j Hj. destruct (Hread j) as (y & ? & _ & ?); [lia|]. by exists y. }
    { destruct Hassign as [?|[?|?]]; [by right; left | done | left; lia]. }
    unfold RawMemory_plus. simpl. rewrite bool_decide_eq_true_2 by lia.
    rewrite Hmx. rewrite construct_at_Some by lia. simpl.
    match goal with
    | |- ∃ v' l, Done _ ?V ?L = _ ∧ _ =>
        exists V, L; split; [reflexivity|];
        destruct (inserted_by_lookup v V idx x) as [Hinv' Hvals]; simpl; try done; try lia
    end.
    + rewrite length_insert. lia.
    + intros i Hi. rewrite list_lookup_insert_ne by lia. apply Hlo. lia.
    + apply list_lookup_insert_eq. lia.
    + intros j Hj. rewrite list_lookup_insert_ne by lia. apply Hin. lia.
Qed.

Lemma Erase_ok pos v :
  invariant v →
  (0 ≤ pos < Z.of_nat (size_ v))%Z →
  Forall (λ y, move_assign_throws y = false) (drop (S (Z.to_nat pos)) (values v)) →
  is_trivially_copyable = true ∨ S (Z.to_nat pos) = size_ v →
  ∃ v' x, Erase pos v = Done pos v' [x] ∧
    values v !! Z.to_nat pos = Some x ∧
    invariant v' ∧ S (size_ v') = size_ v ∧ Capacity v' = Capacity v ∧
    values v' = delete (Z.to_nat pos) (values v).
Proof.
  intros Hinv Hpos Hnt Hassign. pose proof Hinv as (Hc & Hs & Hlive).
  unfold Erase, Capacity. rewrite in_range_true by lia.
  set (idx := Z.to_nat pos). assert (idx < size_ v) as Hidx by lia.
  assert (Z.of_nat idx = pos) as Hback by lia. rewrite Hback.
  unfold RawMemory_plus. rewrite bool_decide_eq_true_2 by lia.
  destruct (invariant_read v idx Hinv Hidx) as (x & Hx & Hvx).
  rewrite (destroy_at_Some _ _ _ Hx).
  unfold std_move. rewrite bool_decide_eq_true_2 by lia. rewrite Nat.add_1_r.
  destruct (move_loop_left_ok (size_ v - S idx) (<[idx := None]> (buffer_ (data_ v))) idx)
    as (b' & -> & Hl & Hin & Hlo & Hhi).
  { intros j Hj. rewrite read_at_insert_ne by lia.
    destruct (invariant_read v (S idx + j) Hinv) as (y & Hy & Hvy); [lia|].
    exists y. split; [done|].
    apply (Forall_lookup_1 (λ y, move_assign_throws y = false) _ j y Hnt).
    rewrite lookup_drop. exact Hvy. }
  { destruct Hassign as [?|?]; [by right; left | left; lia]. }
  rewrite length_insert in Hl.
  set (v' := mkVector (with_buffer (data_ v) b') (size_ v - 1)).
  assert (∀ i, i < size_ v - 1 →
            buffer_ (data_ v') !! i =
            buffer_ (data_ v) !! (if decide (i < idx) then i else S i)) as Hshift.
  { intros i Hi. simpl. case_decide.
    - rewrite Hlo by lia. apply list_lookup_insert_ne. lia.
    - replace i with (idx + (i - idx)) at 1 by lia. rewrite Hin by lia.
      rewrite list_lookup_insert_ne by lia. f_equal. lia. }
  assert (invariant v') as Hinv'.
  { split_and!; [simpl; lia|simpl; lia|]. intros i Hi. simpl in Hi. unfold read_at.
    rewrite (Hshift i Hi). apply Hlive. case_decide; lia. }
  exists v', x. split_and!; try done; [simpl; lia|].
  apply delete_by_lookup.
  - rewrite values_length by done. lia.
  - rewrite !values_length by done. simpl. lia.
  - intros i Hi. rewrite !values_lookup by done.
    rewrite !decide_True by (simpl; lia). unfold read_at.
    rewrite (Hshift i) by lia. by rewrite decide_True.
  - intros i. rewrite values_length by done. intros Hi. simpl in Hi.
    rewrite !values_lookup by done. rewrite !decide_True by (simpl; lia).
    unfold read_at. rewrite (Hshift i) by lia. by rewrite decide_False by lia.
Qed.

(** For a type that is not trivially copyable, [Erase] before the last
    element move-assigns into the slot it has just destroyed. *)
Lemma Erase_destroyed_slot pos v :
  invariant v →
  (0 ≤ pos)%Z →
  S (Z.to_nat pos) < size_ v →
  is_trivially_copyable = false →
  Erase pos v = UB.
Proof.
  intros Hinv Hpos Hlast Htriv. pose proof Hinv as (Hc & Hs & Hlive).
  unfold Erase. rewrite in_range_true by lia.
  set (idx := Z.to_nat pos). assert (S idx < size_ v) as Hidx by done.
  unfold RawMemory_plus. rewrite bool_decide_eq_true_2 by lia.
  destruct (invariant_read v idx Hinv) as (x & Hx & _); [lia|].
  rewrite (destroy_at_Some _ _ _ Hx).
  unfold std_move. rewrite bool_decide_eq_true_2 by lia. rewrite Nat.add_1_r.
  destruct (size_ v - S idx) as [|n] eqn:Hn; [lia|]. cbn [move_loop].
  destruct (invariant_read v (S idx) Hinv) as (y & Hy & _); [lia|].
  rewrite read_at_insert_ne by lia. rewrite Hy.
  rewrite assign_at_nontrivial; [done|done|].
  unfold read_at. by rewrite list_lookup_insert_eq by lia.
Qed.

(** For a type that is not trivially copyable, [Emplace] with room left and
    before [end()] move-assigns the last element into the slot at [end()],
    where no object lives. *)
Lemma Emplace_raw_slot pos x v :
  invariant v →
  (0 ≤ pos < Z.of_nat (size_ v))%Z →
  size_ v ≠ capacity_ (data_ v) →
  read_at (buffer_ (data_ v)) (size_ v) = None →
  is_trivially_copyable = false →
  Emplace pos (Some x) v = UB.
Proof.
  intros Hinv Hpos Hroom Hraw Htriv. pose proof Hinv as (Hc & Hs & Hlive).
  unfold Emplace. rewrite in_range_true by lia. cbv zeta.
  rewrite bool_decide_eq_false_2 by done.
  unfold move_backward. rewrite bool_decide_eq_true_2 by lia. rewrite Nat.add_1_r.
  destruct (size_ v - Z.to_nat pos) as [|n] eqn:Hn; [lia|].
  assert (∃ s, size_ v = S s) as [s Hsz] by (exists (size_ v - 1); lia).
  destruct (Hlive s) as [y Hy]; [lia|].
  rewrite Hsz in Hraw |- *. cbn [move_backward_loop]. rewrite Hy.
  by rewrite assign_at_nontrivial.
Qed.

Lemma Insert_of_Emplace c pos x v :
  construct_throws c x = false → Insert_of c pos x v = Emplace pos (Some x) v.
Proof.
  intros Hx. destruct c; simpl in *; unfold Insert, Insert_rvalue, by_copy, by_move;
    by rewrite Hx.
Qed.

End InsertErase.

(** ** Copy construction and copy assignment *)

Section Copy.
Context {T : Type} {E : Element T}.
Implicit Types (v rhs other : Vector T) (x : T).

(** The first element of a list on which a constructor throws. *)
Lemma first_throwing (f : T → bool) (l : list T) :
  Exists (λ y, f y = true) l →
  ∃ k y, l !! k = Some y ∧ f y = true ∧ ∀ j z, j < k → l !! j = Some z → f z = false.
Proof.
  induction l as [|z l IH]; intros Hex; [by apply Exists_nil in Hex|].
  destruct (f z) eqn:Hz.
  - exists 0, z. split_and!; [done|done|]. intros; lia.
  - apply Exists_cons in Hex as [Hex|Hex]; [congruence|].
    destruct (IH Hex) as (k & y & Hk & Hy & Hbefore).
    exists (S k), y. split_and!; [done|done|].
    intros [|j] w Hj Hw; simpl in Hw; [by simplify_eq|]. eapply Hbefore; [|done]. lia.
Qed.

Lemma Vector_copy_ok other :
  invariant other →
  Forall (λ y, copy_throws y = false) (values other) →
  ∃ c, Vector_copy other = Done c tt [] ∧
    invariant c ∧ size_ c = size_ other ∧ Capacity c = size_ other ∧
    values c = values other.
Proof.
  intros Hinv Hnt. unfold Vector_copy, uninitialized_copy_n, Capacity.
  destruct (uninitialized_copy_from_ok (buffer_ (data_ other)) 0 0 (size_ other) 0
              (buffer_ (RawMemory_for_live (size_ other)))) as (dst & -> & Hl & Hin & _).
  { intros j Hj. destruct (invariant_read other j Hinv) as (y & Hy & Hvy); [lia|].
    exists y. split; [done|].
    by apply (Forall_lookup_1 (λ y, copy_throws y = false) _ j y Hnt). }
  { simpl. unfold raw_block. rewrite length_replicate. lia. }
  simpl in Hl. unfold raw_block in Hl. rewrite length_replicate in Hl.
  set (c := mkVector (with_buffer (RawMemory_for_live (size_ other)) dst) (size_ other)).
  assert (∀ i, i < size_ other → buffer_ (data_ c) !! i = buffer_ (data_ other) !! i) as Hsame.
  { intros i Hi. apply (Hin i). lia. }
  assert (invariant c) as Hinvc.
  { split_and!; [simpl; lia|simpl; lia|]. intros i Hi. simpl in Hi. unfold read_at.
    rewrite Hsame by done. destruct Hinv as (_ & _ & Hlive). by apply Hlive. }
  exists c. split_and!; try done.
  apply list_eq. intros i. rewrite !values_lookup by done. simpl.
  case_decide; [|done]. unfold read_at. by rewrite Hsame.
Qed.

Lemma Vector_copy_throw other :
  invariant other →
  Exists (λ y, copy_throws y = true) (values other) →
  ∃ l, Vector_copy other = Throw tt l.
Proof.
  intros Hinv Hex. unfold Vector_copy, uninitialized_copy_n.
  destruct (first_throwing _ _ Hex) as (k & y & Hk & Hy & Hbefore).
  rewrite values_lookup in Hk by done. case_decide as Hlt; [|done].
  destruct (uninitialized_copy_from_throw (buffer_ (data_ other)) 0 0 (size_ other) 0
              (buffer_ (RawMemory_for_live (size_ other))) k y) as (dst1 & -> & Hl & Hin & _);
    try done.
  { lia. }
  { intros j Hj. destruct (invariant_read other j Hinv) as (z & Hz & Hvz); [lia|].
    exists z. split; [done|]. eapply Hbefore; [|done]. lia. }
  { simpl. unfold raw_block. rewrite length_replicate. lia. }
  unfold rollback.
  destruct (destroy_n_ok k dst1 0) as (b' & l & -> & _).
  { intros j Hj. unfold read_at. pose proof (Hin j) as Hcopy. simpl in Hcopy.
    rewrite Hcopy by lia. destruct Hinv as (_ & _ & Hlive). apply Hlive. lia. }
  by exists l.
Qed.

Lemma CopyFrom_ok rhs v :
  invariant v → invariant rhs →
  size_ rhs ≤ Capacity v →
  Forall (λ y, copy_throws y = false ∧ copy_assign_throws y = false) (values rhs) →
  ∃ v', CopyFrom rhs v = Done tt v' (drop (size_ rhs) (values v)) ∧
    invariant v' ∧ size_ v' = size_ rhs ∧ Capacity v' = Capacity v ∧
    values v' = values rhs.
Proof.
  intros Hinv Hinvr Hfit Hnt. unfold Capacity in *.
  pose proof Hinv as (Hc & Hs & Hlive). pose proof Hinvr as (Hcr & Hsr & Hliver).
  assert (∀ j, j < size_ rhs → ∃ y, read_at (buffer_ (data_ rhs)) j = Some y ∧
            copy_throws y = false ∧ copy_assign_throws y = false) as Hread.
  { intros j Hj. destruct (Hliver j Hj) as [y Hy]. exists y. split; [done|].
    by apply (values_Forall _ rhs Hinvr Hnt j y). }
  unfold CopyFrom. set (cp := size_ v `min` size_ rhs).
  destruct (copy_n_ok (buffer_ (data_ rhs)) cp 0 (buffer_ (data_ v)) 0)
    as (b1 & -> & Hl1 & Hin1 & Hout1).
  { intros j Hj. destruct (Hread j) as (y & ? & _ & ?); [lia|]. by exists y. }
  { intros j Hj. apply Hlive. lia. }
  { lia. }
  simpl.
  assert (∀ v', capacity_ (data_ v') = capacity_ (data_ v) →
            length (buffer_ (data_ v')) = length (buffer_ (data_ v)) →
            size_ v' = size_ rhs →
            (∀ i, i < size_ rhs → buffer_ (data_ v') !! i = buffer_ (data_ rhs) !! i) →
            invariant v' ∧ values v' = values rhs) as Hfinal.
  { intros v' Hc' Hl' Hs' Hsame.
    assert (invariant v') as Hinv'.
    { split_and!; [lia|lia|]. intros i Hi. unfold read_at. rewrite Hsame by lia.
      apply Hliver. lia. }
    split; [done|]. apply list_eq. intros i. rewrite !values_lookup by done.
    rewrite Hs'. case_decide; [|done]. unfold read_at. by rewrite Hsame. }
  case_bool_decide as Hlonger.
  - assert (cp = size_ rhs) as Hcp by lia.
    destruct (destroy_n_ok (size_ v - cp) b1 cp) as (b' & l & -> & Hl' & Hll & Hlog & Hin' & Hout').
    { intros j Hj. unfold read_at. rewrite Hout1 by lia. apply Hlive. lia. }
    set (v' := mkVector (with_buffer (data_ v) b') (size_ rhs)).
    destruct (Hfinal v') as [Hinv' Hvals]; simpl; try done; try lia.
    { intros i Hi. rewrite Hout' by lia. apply (Hin1 i). lia. }
    exists v'. split_and!; try done. simpl. do 2 f_equal.
    apply list_eq. intros j. rewrite lookup_drop, values_lookup by done.
    destruct (decide (j < size_ v - cp)).
    + rewrite Hlog by done. rewrite decide_True by lia. unfold read_at.
      rewrite Hout1 by lia. by rewrite Hcp.
    + rewrite lookup_ge_None_2 by lia. by rewrite decide_False by lia.
  - assert (cp = size_ v) as Hcp by lia.
    unfold uninitialized_copy_n.
    destruct (uninitialized_copy_from_ok (buffer_ (data_ rhs)) cp cp (size_ rhs - cp) 0 b1)
      as (b' & -> & Hl' & Hin' & Hout').
    { intros j Hj. destruct (Hread (cp + j)) as (y & ? & ? & _); [lia|]. by exists y. }
    { lia. }
    set (v' := mkVector (with_buffer (data_ v) b') (size_ rhs)).
    destruct (Hfinal v') as [Hinv' Hvals]; simpl; try done; try lia.
    { intros i Hi. destruct (decide (i < cp)).
      - rewrite Hout' by lia. apply (Hin1 i). lia.
      - replace i with (cp + (i - cp)) by lia. apply Hin'. lia. }
    exists v'. split_and!; try done. simpl. do 2 f_equal.
    rewrite drop_ge; [done|]. rewrite values_length by done. lia.
Qed.

End Copy.

(** ** [EmplaceBack] when the growth path throws *)

Section AppendThrows.
Context {T : Type} {E : Element T}.
Implicit Types (v : Vector T) (x : T).

Lemma EmplaceBack_ctor_throws v :
  Size v = Capacity v → EmplaceBack None v = Throw v [].
Proof.
  unfold Size, Capacity, EmplaceBack, RawMemory_plus. intros Hfull.
  rewrite bool_decide_eq_true_2 by done. simpl.
  rewrite bool_decide_eq_true_2; [done|]. case_bool_decide; lia.
Qed.

Lemma log_is_prefix v (l : list T) k :
  invariant v → k ≤ size_ v → length l = k →
  (∀ j, j < k → l !! j = read_at (buffer_ (data_ v)) j) →
  l = take k (values v).
Proof.
  intros Hinv Hk Hl Hlog. apply list_eq. intros j.
  destruct (decide (j < k)).
  - rewrite lookup_take_lt, values_lookup by done. rewrite decide_True by lia.
    by apply Hlog.
  - rewrite lookup_take_ge by lia. apply lookup_ge_None_2. lia.
Qed.

Lemma EmplaceBack_relocation_throws x v k y :
  invariant v →
  Size v = Capacity v →
  values v !! k = Some y →
  relocate_throws y = true →
  (∀ j z, j < k → values v !! j = Some z → relocate_throws z = false) →
  ∃ v', EmplaceBack (Some x) v = Throw v' (take k (values v)) ∧
    invariant v' ∧ Size v' = Size v ∧ Capacity v' = Capacity v ∧
    values v' = (relocated <$> take k (values v)) ++ drop k (values v) ∧
    (relocate_by_move = false → v' = v).
Proof.
  intros Hinv Hfull Hk Hy Hbefore. pose proof Hinv as (Hc & Hs & Hlive).
  unfold Size, Capacity in *. rewrite values_lookup in Hk by done.
  case_decide as Hlt; [|done].
  assert (∀ j, j < k → ∃ z, read_at (buffer_ (data_ v)) j = Some z ∧
            relocate_throws z = false) as Hread.
  { intros j Hj. destruct (invariant_read v j Hinv) as (z & Hz & Hvz); [lia|].
    exists z. split; [done|]. by apply (Hbefore j). }
  unfold EmplaceBack, Capacity, RawMemory_plus.
  rewrite bool_decide_eq_true_2 by done.
  set (c := if bool_decide (size_ v = 0) then 1 else size_ v * 2).
  assert (size_ v < c) as Hclt by (unfold c; case_bool_decide; lia).
  simpl. rewrite bool_decide_eq_true_2 by lia.
  rewrite construct_at_Some by (unfold raw_block; rewrite length_replicate; lia).
  unfold SwapCopy, CopyTo, relocate_throws, relocated in *.
  rewrite Nat.sub_0_r. simpl.
  set (dst := <[size_ v := Some x]> (raw_block c)).
  assert (length dst = c) as Hldst.
  { unfold dst, raw_block. by rewrite length_insert, length_replicate. }
  destruct relocate_by_move.
  - unfold uninitialized_move_n.
    destruct (uninitialized_move_from_throw 0 0 (size_ v) 0 (buffer_ (data_ v)) dst k y)
      as (src1 & dst1 & -> & Hls & Hld & Hin & Hout & Hsin & Hsout);
      [lia | intros j Hj; apply Hread; lia | done | done | lia |].
    unfold rollback.
    destruct (destroy_n_ok k dst1 0) as (b' & l & -> & _ & Hll & Hlog & _).
    { intros j Hj. unfold read_at. pose proof (Hin j) as Hmv. simpl in Hmv.
      rewrite Hmv by lia. apply Hlive. lia. }
    assert (l = take k (values v)) as ->.
    { apply (log_is_prefix v); [done|lia|done|]. intros j Hj. rewrite Hlog by done. simpl.
      unfold read_at. pose proof (Hin j) as Hmv. simpl in Hmv. by rewrite Hmv by lia. }
    set (v' := set_block v src1).
    assert (invariant v') as Hinv'.
    { split_and!; [simpl; lia|simpl; lia|]. intros i Hi. simpl in Hi. simpl.
      destruct (decide (i < k)).
      - destruct (Hread i) as (z & Hz & _); [done|]. exists (moved_from z).
        apply read_at_Some. by apply (Hsin i z); [lia|].
      - unfold read_at. rewrite Hsout by (simpl; lia). by apply Hlive. }
    exists v'. split_and!; try done.
    apply list_eq. intros i. rewrite values_lookup by done. simpl.
    assert (∀ f : T → T, length (f <$> take k (values v)) = k) as Hlp
      by (intros f; rewrite length_fmap, length_take, values_length by done; lia).
    destruct (decide (i < k)).
    + rewrite lookup_app_l by (rewrite Hlp; lia).
      rewrite list_lookup_fmap, lookup_take_lt by done.
      destruct (invariant_read v i Hinv) as (z & Hz & Hvz); [lia|].
      rewrite Hvz, decide_True by lia. simpl. apply read_at_Some. by apply (Hsin i z); [lia|].
    + rewrite lookup_app_r by (rewrite Hlp; lia).
      rewrite Hlp, lookup_drop, values_lookup by done.
      replace (k + (i - k)) with i by lia. case_decide; [|done].
      unfold read_at. by rewrite Hsout by (simpl; lia).
  - unfold uninitialized_copy_n.
    destruct (uninitialized_copy_from_throw (buffer_ (data_ v)) 0 0 (size_ v) 0 dst k y)
      as (dst1 & -> & Hld & Hin & Hout);
      [lia | intros j Hj; apply Hread; lia | done | done | lia |].
    unfold rollback.
    destruct (destroy_n_ok k dst1 0) as (b' & l & -> & _ & Hll & Hlog & _).
    { intros j Hj. unfold read_at. pose proof (Hin j) as Hcp. simpl in Hcp.
      rewrite Hcp by lia. apply Hlive. lia. }
    assert (l = take k (values v)) as ->.
    { apply (log_is_prefix v); [done|lia|done|]. intros j Hj. rewrite Hlog by done. simpl.
      unfold read_at. pose proof (Hin j) as Hcp. simpl in Hcp. by rewrite Hcp by lia. }
    exists v. split_and!; try done.
    by rewrite list_fmap_id, take_drop.
Qed.

End AppendThrows.

(** ** Assignment between two objects of a store *)

Section Store.
Context {T : Type} {E : Element T}.
Implicit Types (v a b : Vector T) (σ : gmap nat (Vector T)).

Lemma Vector_eta v :
  mkVector (mkRawMemory (buffer_ (data_ v)) (capacity_ (data_ v))) (size_ v) = v.
Proof. by destruct v as [[? ?] ?]. Qed.

Lemma Vector_Swap_pair a b : Vector_Swap a b = (b, a).
Proof. unfold Vector_Swap, RawMemory_Swap. by rewrite !Vector_eta. Qed.

Lemma Vector_destroy_ok v : invariant v → Vector_destroy v = Some (values v).
Proof.
  intros Hinv. unfold Vector_destroy. pose proof Hinv as (_ & _ & Hlive).
  destruct (destroy_n_ok (size_ v) (buffer_ (data_ v)) 0) as (b' & l & -> & _ & Hl & Hlog & _).
  { intros j Hj. apply Hlive. lia. }
  simpl. f_equal. rewrite (log_is_prefix v l (size_ v)); [|done|lia|done|done].
  apply take_ge. rewrite values_length by done. lia.
Qed.

Lemma Swap_ok this other a b σ :
  σ !! this = Some a → σ !! other = Some b →
  Swap this other σ = Done tt (<[this := b]> (<[other := a]> σ)) [].
Proof.
  intros Ha Hb. unfold Swap. by rewrite Ha, Hb, Vector_Swap_pair.
Qed.

Lemma copy_assign_ok this rhs a b σ :
  this ≠ rhs →
  σ !! this = Some a → σ !! rhs = Some b →
  invariant a → invariant b →
  Forall (λ y, copy_throws y = false ∧ copy_assign_throws y = false) (values b) →
  ∃ a', copy_assign this rhs σ =
          Done tt (<[this := a']> σ)
            (if bool_decide (Capacity a < Size b) then values a else drop (Size b) (values a)) ∧
    invariant a' ∧ Size a' = Size b ∧ values a' = values b ∧
    Capacity a' = (if bool_decide (Capacity a < Size b) then Size b else Capacity a).
Proof.
  intros Hne Ha Hb Hinva Hinvb Hnt. unfold copy_assign, Capacity, Size.
  rewrite bool_decide_eq_true_2 by done. rewrite Ha, Hb.
  case_bool_decide as Hbig.
  - destruct (Vector_copy_ok b Hinvb) as (c & -> & Hinvc & Hsc & Hcc & Hvc).
    { eapply Forall_impl; [exact Hnt|]. by intros y [? _]. }
    rewrite Vector_Swap_pair, Vector_destroy_ok by done. by exists c.
  - destruct (CopyFrom_ok b a Hinva Hinvb) as (a' & -> & Hinv' & Hs' & Hc' & Hv');
      [unfold Capacity; lia|done|].
    by exists a'.
Qed.

Lemma copy_assign_deep_copy_throws this rhs a b σ :
  this ≠ rhs →
  σ !! this = Some a → σ !! rhs = Some b →
  invariant b →
  Capacity a < Size b →
  Exists (λ y, copy_throws y = true) (values b) →
  ∃ l, copy_assign this rhs σ = Throw σ l.
Proof.
  intros Hne Ha Hb Hinvb Hbig Hex. unfold copy_assign, Capacity, Size in *.
  rewrite bool_decide_eq_true_2 by done. rewrite Ha, Hb.
  rewrite bool_decide_eq_true_2 by done.
  destruct (Vector_copy_throw b Hinvb Hex) as (l & ->). by exists l.
Qed.

End Store.

(** ** The claims *)

Ltac solve_invariant :=
  split_and!;
  [ reflexivity
  | simpl; lia
  | let i := fresh "i" in
    let Hi := fresh "Hi" in
    intros i Hi; simpl in Hi;
    repeat (destruct i as [|i]; [eexists; reflexivity|]); lia ].

Lemma v_1_2_3_invariant : invariant v_1_2_3.
Proof. solve_invariant. Qed.

Lemma v_1_13_invariant : invariant v_1_13.
Proof. solve_invariant. Qed.

Lemma v_reserved_6_invariant : invariant v_reserved_6.
Proof. solve_invariant. Qed.

(** C1: [Resize(new_size)] with [new_size > size] is meant to value-construct
    the slots [[size, new_size)].  The code starts the construction at slot
    [new_size]: in the scenario [reserve(0); reserve(5); resize(3)] it
    writes slots 3, 4 and 5 of a block of five, and with six slots reserved
    it returns with size 3 and no object in slots 0, 1 and 2. *)
Theorem C1_resize_constructs_from_new_size :
  run [Reserve (E := int_element) 0; Reserve (E := int_element) 5;
       Resize (E := int_element) 3] Vector_default = UB ∧
  run [Reserve (E := int_element) 0; Reserve (E := int_element) 6;
       Resize (E := int_element) 3] Vector_default =
    Done tt (mkVector (mkRawMemory [None; None; None; Some 0; Some 0; Some 0]%Z 6) 3) [].
Proof. split; vm_compute; reflexivity. Qed.

(** C3: [Erase(end())] passes the range test of the code, yet no call at
    that position has a defined result: the slot holds no element of the
    vector and the range handed to [std::move] starts after its end. *)
Theorem C3_erase_at_end_undefined :
  ∀ (T : Type) (E : Element T) (v : Vector T),
    in_range (Z.of_nat (size_ v)) v = true ∧ Erase (Z.of_nat (size_ v)) v = UB.
Proof.
  intros T E v. split; [apply in_range_true; lia|].
  unfold Erase. rewrite in_range_true by lia. rewrite Nat2Z.id.
  destruct (RawMemory_plus (data_ v) (size_ v)) as [p|] eqn:Hp; [|done].
  unfold RawMemory_plus in Hp. case_bool_decide; [|done]. simplify_eq.
  destruct (destroy_at (buffer_ (data_ v)) (size_ v)) as [[b x]|]; [|done].
  unfold std_move. by rewrite bool_decide_eq_false_2 by lia.
Qed.

(** C4: the invariant [size <= capacity, slots [0, size) constructed] does
    not survive every public operation: [Resize(3)] on an empty vector with
    six reserved slots returns a vector of size 3 whose slot 0 holds no
    object, and [Erase(end())] on [[1,2,3]] has no defined result. *)
Theorem C4_invariant_not_preserved :
  invariant v_reserved_6 ∧
  (∃ v', Resize (E := int_element) 3 v_reserved_6 = Done tt v' [] ∧
     ¬ invariant v' ∧ index v' 0 = None) ∧
  invariant v_1_2_3 ∧ Erase (E := int_element) 3 v_1_2_3 = UB.
Proof.
  split; [apply v_reserved_6_invariant|]. split.
  - eexists. split; [vm_compute; reflexivity|]. split; [|reflexivity].
    intros (_ & _ & Hlive). destruct (Hlive 0) as [x Hx]; [simpl; lia|]. discriminate Hx.
  - split; [apply v_1_2_3_invariant|]. vm_compute. reflexivity.
Qed.

(** C2, as stated, fails: relocating [[1,13]] of a move-only type whose move
    throws on 13 leaves [[0,13]] behind, and in no case is the new element 5
    among the destroyed objects, whether relocation is by move or by copy. *)
Lemma C2_counterexample :
  EmplaceBack (E := throwing_move_element) (Some 5%Z) v_1_13 =
    Throw (mkVector (mkRawMemory [Some 0; Some 13]%Z 2) 2) [1%Z] ∧
  EmplaceBack (E := throwing_copy_element) (Some 5%Z) v_1_13 = Throw v_1_13 [1%Z] ∧
  ¬ (∃ l, EmplaceBack (E := throwing_move_element) (Some 5%Z) v_1_13 = Throw v_1_13 l) ∧
  ¬ (∃ l, EmplaceBack (E := throwing_copy_element) (Some 5%Z) v_1_13 = Throw v_1_13 l ∧
          5%Z ∈ l).
Proof.
  split_and!; [vm_compute; reflexivity | vm_compute; reflexivity | |].
  - intros [l Hl]. vm_compute in Hl. discriminate Hl.
  - intros [l [Hl Hin]]. vm_compute in Hl. simplify_eq.
    apply list_elem_of_In in Hin. simpl in Hin. destruct Hin as [Hin|[]]. discriminate Hin.
Qed.

(** C2 (amended): when [EmplaceBack] has to grow and the construction of the
    new element throws, the vector is untouched and nothing is destroyed.
    When relocating the existing elements throws at element [k], the [k]
    copies made before it are among the destroyed objects, the exception
    escapes, size
    and capacity are unchanged, and the elements are the old ones except
    that each of the first [k] is what relocation left in its place: itself
    under relocation by copy (the vector is then exactly as before), its
    moved-from state under relocation by move. *)
Theorem C2_growth_failure :
  ∀ (T : Type) (E : Element T) (v : Vector T),
    invariant v →
    Size v = Capacity v →
    EmplaceBack None v = Throw v [] ∧
    ∀ (x : T) (k : nat) (y : T),
      values v !! k = Some y →
      relocate_throws y = true →
      (∀ j z, j < k → values v !! j = Some z → relocate_throws z = false) →
      ∃ v' l, EmplaceBack (Some x) v = Throw v' l ∧
        take k (values v) ⊆+ l ∧
        invariant v' ∧ Size v' = Size v ∧ Capacity v' = Capacity v ∧
        values v' = (relocated <$> take k (values v)) ++ drop k (values v) ∧
        (relocate_by_move = false → v' = v).
Proof.
  intros T E v Hinv Hfull. split; [by apply EmplaceBack_ctor_throws|].
  intros x k y Hk Hy Hbefore.
  destruct (EmplaceBack_relocation_throws x v k y Hinv Hfull Hk Hy Hbefore)
    as (v' & Hrun & Hrest).
  by exists v', (take k (values v)).
Qed.

Lemma C2_growth_failure_witness :
  EmplaceBack (E := throwing_copy_element) None v_1_13 = Throw v_1_13 [] ∧
  ∃ v' l, EmplaceBack (E := throwing_copy_element) (Some 5%Z) v_1_13 = Throw v' l ∧
    take 1 (values v_1_13) ⊆+ l ∧
    invariant v' ∧ Size v' = Size v_1_13 ∧ Capacity v' = Capacity v_1_13 ∧
    values v' =
      (relocated (E := throwing_copy_element) <$> take 1 (values v_1_13)) ++
      drop 1 (values v_1_13) ∧
    (relocate_by_move (E := throwing_copy_element) = false → v' = v_1_13).
Proof.
  destruct (C2_growth_failure Z throwing_copy_element v_1_13 v_1_13_invariant eq_refl)
    as [Hctor Hreloc].
  split; [exact Hctor|].
  apply (Hreloc 5%Z 1 13%Z); [reflexivity | reflexivity |].
  intros [|j] z Hj Hz; [|lia]. vm_compute in Hz. injection Hz as <-. reflexivity.
Defined.

(** C5: pushing the elements of a non-empty list onto an empty vector, each
    through either overload of [PushBack], when no construction and no
    relocation throws, returns a vector holding them in order whose capacity
    is the least power of two that is at least their number; a single push
    through either overload changes the capacity exactly when size equals
    capacity, and then to [max 1 (2 * size)]; pushing 1, 2, 3 onto an empty
    vector of [int], as rvalues or as lvalues, gives [[1,2,3]] with size 3
    and capacity 4. *)
Theorem C5_push_back_capacity :
  (∀ (T : Type) (E : Element T),
    (∀ ps : list (value_category * T),
       ps ≠ [] →
       Forall (λ p, construct_throws p.1 p.2 = false ∧ relocate_throws p.2 = false) ps →
       ∃ v l, run ((λ p, PushBack_of p.1 p.2) <$> ps) Vector_default = Done tt v l ∧
         values v = ps.*2 ∧ Size v = length ps ∧
         least_pow2_ge (Capacity v) (length ps)) ∧
    (∀ (c : value_category) (v : Vector T) (x : T),
       invariant v →
       construct_throws c x = false →
       Forall (λ y, relocate_throws y = false) (values v) →
       ∃ v' l, PushBack_of c x v = Done tt v' l ∧
         values v' = values v ++ [x] ∧ Size v' = S (Size v) ∧
         Capacity v' =
           (if bool_decide (Size v = Capacity v) then 1 `max` (2 * Size v)
            else Capacity v) ∧
         (Capacity v' ≠ Capacity v ↔ Size v = Capacity v))) ∧
  (∃ l l', run (PushBack_rvalue (E := int_element) <$> [1; 2; 3]%Z) Vector_default =
             Done tt v_1_2_3 l ∧
           run (PushBack (E := int_element) <$> [1; 2; 3]%Z) Vector_default =
             Done tt v_1_2_3 l' ∧
           values v_1_2_3 = [1; 2; 3]%Z ∧ Size v_1_2_3 = 3 ∧ Capacity v_1_2_3 = 4).
Proof.
  split; [|eexists _, _; split_and!; [vm_compute; reflexivity..|done|done|done]].
  intros T E. split.
  - intros ps Hne Hps.
    destruct (run_PushBack_of_ok ps Vector_default) as (v & l & Hrun & Hinv & Hdbl & Hv);
      [apply Vector_default_invariant | by left | done | by apply Forall_nil |].
    simpl in Hv. exists v, l.
    assert (size_ v = length ps) as Hs
      by (by rewrite <-(values_length v), Hv, length_fmap).
    split_and!; try done.
    rewrite <-Hs. apply doubling_least; [done|]. rewrite Hs. by destruct ps.
  - intros c v x Hinv Hx Hnt.
    destruct (PushBack_of_ok c x v Hinv Hx Hnt) as (v' & l & Hrun & Hinv' & Hs' & Hv' & Hc').
    exists v', l. split_and!; try done. rewrite Hc'.
    destruct Hinv as (_ & Hle & _). unfold Size, Capacity in *. case_bool_decide; lia.
Qed.

Lemma C5_push_back_capacity_witness :
  (∃ v l, run ((λ p, PushBack_of (E := int_element) p.1 p.2) <$>
                 [(lvalue, 1%Z); (rvalue, 2%Z); (lvalue, 3%Z)]) Vector_default =
            Done tt v l ∧
     values v = [(lvalue, 1%Z); (rvalue, 2%Z); (lvalue, 3%Z)].*2 ∧
     Size v = 3 ∧ least_pow2_ge (Capacity v) 3) ∧
  (∃ v' l, PushBack_of (E := int_element) rvalue 4%Z v_1_2_3 = Done tt v' l ∧
     values v' = values v_1_2_3 ++ [4%Z] ∧ Size v' = S (Size v_1_2_3) ∧
     Capacity v' =
       (if bool_decide (Size v_1_2_3 = Capacity v_1_2_3) then 1 `max` (2 * Size v_1_2_3)
        else Capacity v_1_2_3) ∧
     (Capacity v' ≠ Capacity v_1_2_3 ↔ Size v_1_2_3 = Capacity v_1_2_3)).
Proof.
  destruct (proj1 C5_push_back_capacity Z int_element) as [Hrun Hstep]. split.
  - apply (Hrun [(lvalue, 1%Z); (rvalue, 2%Z); (lvalue, 3%Z)]);
      [discriminate | repeat constructor].
  - apply (Hstep rvalue v_1_2_3 4%Z); [exact v_1_2_3_invariant | reflexivity | repeat constructor].
Defined.

(** C6: copy assignment [a = b] between two vectors of a store that satisfy
    the invariant.  If they are the same object nothing happens.  Otherwise,
    when no copy of an element of [b] throws, it returns with [a] holding
    [b]'s size and [b]'s elements and [b] untouched; if [b]'s size exceeds
    [a]'s capacity, [a] then owns a block of exactly [b]'s size and all of
    [a]'s old elements were destroyed, otherwise [a] keeps its block and
    only its elements past [b]'s size were destroyed.  When [b]'s size
    exceeds [a]'s capacity and copying an element of [b] throws, the
    exception escapes and the store is as before. *)
Theorem C6_copy_assignment :
  ∀ (T : Type) (E : Element T) (σ : gmap nat (Vector T)) (this rhs : nat) (a b : Vector T),
    σ !! this = Some a → σ !! rhs = Some b →
    invariant a → invariant b →
    (this = rhs → copy_assign this rhs σ = Done tt σ []) ∧
    (this ≠ rhs →
     Forall (λ y, copy_throws y = false ∧ copy_assign_throws y = false) (values b) →
     ∃ a', copy_assign this rhs σ =
             Done tt (<[this := a']> σ)
               (if bool_decide (Capacity a < Size b) then values a
                else drop (Size b) (values a)) ∧
       <[this := a']> σ !! rhs = Some b ∧
       invariant a' ∧ Size a' = Size b ∧ values a' = values b ∧
       Capacity a' = (if bool_decide (Capacity a < Size b) then Size b else Capacity a)) ∧
    (this ≠ rhs →
     Capacity a < Size b →
     Exists (λ y, copy_throws y = true) (values b) →
     ∃ l, copy_assign this rhs σ = Throw σ l).
Proof.
  intros T E σ this rhs a b Ha Hb Hinva Hinvb. split_and!.
  - intros ->. unfold copy_assign. by rewrite bool_decide_eq_false_2 by (intros Hne; by apply Hne).
  - intros Hne Hnt.
    destruct (copy_assign_ok this rhs a b σ Hne Ha Hb Hinva Hinvb Hnt) as (a' & ? & ? & ? & ? & ?).
    exists a'. split_and!; try done. by rewrite lookup_insert_ne.
  - intros Hne Hbig Hex. by apply (copy_assign_deep_copy_throws this rhs a b).
Qed.

Lemma C6_copy_assignment_witness :
  copy_assign (E := int_element) 1 1 store_123_113 = Done tt store_123_113 [] ∧
  (∃ a', copy_assign (E := int_element) 1 2 store_123_113 =
           Done tt (<[1 := a']> store_123_113)
             (if bool_decide (Capacity v_1_2_3 < Size v_1_13) then values v_1_2_3
              else drop (Size v_1_13) (values v_1_2_3)) ∧
     <[1 := a']> store_123_113 !! 2 = Some v_1_13 ∧
     invariant a' ∧ Size a' = Size v_1_13 ∧ values a' = values v_1_13 ∧
     Capacity a' =
       (if bool_decide (Capacity v_1_2_3 < Size v_1_13) then Size v_1_13
        else Capacity v_1_2_3)) ∧
  (∃ l, copy_assign (E := throwing_copy_element) 1 2 store_empty_113 =
        Throw store_empty_113 l).
Proof.
  split_and!.
  - by apply (C6_copy_assignment Z int_element store_123_113 1 1 v_1_2_3 v_1_2_3
                eq_refl eq_refl v_1_2_3_invariant v_1_2_3_invariant).
  - apply (C6_copy_assignment Z int_element store_123_113 1 2 v_1_2_3 v_1_13
             eq_refl eq_refl v_1_2_3_invariant v_1_13_invariant).
    + lia.
    + repeat constructor.
  - apply (C6_copy_assignment Z throwing_copy_element store_empty_113 1 2
             Vector_default v_1_13 eq_refl eq_refl
             Vector_default_invariant v_1_13_invariant).
    + lia.
    + unfold Capacity, Size. simpl. lia.
    + apply Exists_cons_tl, Exists_cons_hd. reflexivity.
Defined.

(** C7: move construction and move assignment from a distinct source never
    throw and exchange storage and size as one: the destination ends up
    with the source's vector; after move construction the source is the
    empty vector, after move assignment it holds what the destination had. *)
Theorem C7_move :
  ∀ (T : Type) (σ : gmap nat (Vector T)) (this src : nat) (a : Vector T),
    this ≠ src →
    σ !! src = Some a →
    (∃ σ', move_construct this src σ = Done tt σ' [] ∧
       σ' !! this = Some a ∧ σ' !! src = Some Vector_default ∧
       Size (T := T) Vector_default = 0 ∧
       ∀ p, p ≠ this → p ≠ src → σ' !! p = σ !! p) ∧
    (∀ d, σ !! this = Some d →
       ∃ σ', move_assign this src σ = Done tt σ' [] ∧
         σ' !! this = Some a ∧ σ' !! src = Some d ∧
         ∀ p, p ≠ this → p ≠ src → σ' !! p = σ !! p).
Proof.
  intros T σ this src a Hne Ha. split.
  - unfold move_construct.
    rewrite (Swap_ok this src Vector_default a) by by simplify_map_eq.
    eexists. split; [reflexivity|]. split_and!; [by simplify_map_eq.. | done |].
    intros p ? ?. by simplify_map_eq.
  - intros d Hd. unfold move_assign. rewrite bool_decide_eq_true_2 by done.
    rewrite (Swap_ok this src d a) by done.
    eexists. split; [reflexivity|]. split_and!; [by simplify_map_eq..|].
    intros p ? ?. by simplify_map_eq.
Qed.

Lemma C7_move_witness :
  (∃ σ', move_construct 1 2 store_only_123 = Done tt σ' [] ∧
     σ' !! 1 = Some v_1_2_3 ∧ σ' !! 2 = Some Vector_default ∧
     Size (T := Z) Vector_default = 0 ∧
     ∀ p, p ≠ 1 → p ≠ 2 → σ' !! p = store_only_123 !! p) ∧
  (∃ σ', move_assign 1 2 (<[1 := v_1_13]> store_only_123) =
           Done tt σ' [] ∧
     σ' !! 1 = Some v_1_2_3 ∧ σ' !! 2 = Some v_1_13 ∧
     ∀ p, p ≠ 1 → p ≠ 2 →
       σ' !! p = (<[1 := v_1_13]> store_only_123 : gmap nat (Vector Z)) !! p).
Proof.
  split.
  - exact (proj1 (C7_move Z store_only_123 1 2 v_1_2_3
                    ltac:(lia) eq_refl)).
  - exact (proj2 (C7_move Z (<[1 := v_1_13]> store_only_123) 1 2 v_1_2_3
                    ltac:(lia) eq_refl) v_1_13 eq_refl).
Defined.

(** C8: at a position before [begin()] or after [end()], [Emplace], both
    [Insert] overloads and [Erase] return [end()] normally, leave the vector
    as it is, run no constructor and destroy nothing. *)
Theorem C8_invalid_position :
  ∀ (T : Type) (E : Element T) (v : Vector T) (pos : Z) (args : option T) (x : T),
    (pos < 0 ∨ Z.of_nat (size_ v) < pos)%Z →
    Emplace pos args v = Done (Z.of_nat (size_ v)) v [] ∧
    Insert pos x v = Done (Z.of_nat (size_ v)) v [] ∧
    Insert_rvalue pos x v = Done (Z.of_nat (size_ v)) v [] ∧
    Erase pos v = Done (Z.of_nat (size_ v)) v [].
Proof.
  intros T E v pos args x Hout.
  unfold Insert, Insert_rvalue, Emplace, Erase. by rewrite in_range_false.
Qed.

Lemma C8_invalid_position_witness :
  Emplace (E := int_element) 4 (Some 9%Z) v_1_2_3 = Done 3%Z v_1_2_3 [] ∧
  Insert (E := int_element) 4 9%Z v_1_2_3 = Done 3%Z v_1_2_3 [] ∧
  Insert_rvalue (E := int_element) 4 9%Z v_1_2_3 = Done 3%Z v_1_2_3 [] ∧
  Erase (E := int_element) 4 v_1_2_3 = Done 3%Z v_1_2_3 [].
Proof.
  apply (C8_invalid_position Z int_element v_1_2_3 4%Z (Some 9%Z) 9%Z).
  right. simpl. lia.
Defined.

(** C9: insertion followed by erasure at the same position is meant to give
    back the vector.  For an element type that is not trivially copyable the
    code does not get there at any position before [end()].  With room left,
    [Insert] (either overload) shifts the tail by move-assigning the last
    element into the slot at [end()], which holds no object.  When [Insert]
    has to grow it returns, and [Erase] at the same position then destroys
    the element and move-assigns the next one into the slot just destroyed.
    So it is on [[1,2,3]] with capacity 4 and on [[1,13]] with capacity 2. *)
Theorem C9_insert_then_erase_undefined :
  (∀ (T : Type) (E : Element T) (c : value_category) (v : Vector T) (pos : Z) (x : T),
     is_trivially_copyable = false →
     invariant v →
     (0 ≤ pos < Z.of_nat (size_ v))%Z →
     construct_throws c x = false →
     (Size v ≠ Capacity v →
      read_at (buffer_ (data_ v)) (size_ v) = None →
      Insert_of c pos x v = UB) ∧
     (Size v = Capacity v →
      Forall (λ y, relocate_throws y = false ∧ move_assign_throws y = false) (values v) →
      move_throws x = false →
      ∃ v1 l1, Insert_of c pos x v = Done pos v1 l1 ∧
        values v1 = take (Z.to_nat pos) (values v) ++ x :: drop (Z.to_nat pos) (values v) ∧
        Erase pos v1 = UB)) ∧
  Insert (E := class_element) 1 9%Z v_1_2_3 = UB ∧
  Insert_rvalue (E := class_element) 1 9%Z v_1_2_3 = UB ∧
  ∃ v1 l1, Insert (E := class_element) 1 5%Z v_1_13 = Done 1%Z v1 l1 ∧
    values v1 = [1; 5; 13]%Z ∧
    Erase (E := class_element) 1 v1 = UB.
Proof.
  split_and!; [|vm_compute; reflexivity..|eexists _, _; split_and!; vm_compute; reflexivity].
  intros T E c v pos x Htriv Hinv Hpos Hx. rewrite Insert_of_Emplace by done. split.
  - intros Hroom Hraw. by apply Emplace_raw_slot.
  - intros Hfull Hnt Hmx.
    destruct (Emplace_ok pos x v Hinv) as (v1 & l1 & Hins & Hinv1 & Hs1 & Hv1);
      [lia | done | done | by right; left |].
    exists v1, l1. split_and!; [done|done|].
    apply Erase_destroyed_slot; [done|lia|lia|done].
Qed.

Lemma C9_insert_then_erase_undefined_witness :
  Insert_of (E := class_element) lvalue 1 9%Z v_1_2_3 = UB ∧
  ∃ v1 l1, Insert_of (E := class_element) rvalue 1 5%Z v_1_13 = Done 1%Z v1 l1 ∧
    values v1 = take (Z.to_nat 1) (values v_1_13) ++ 5%Z :: drop (Z.to_nat 1) (values v_1_13) ∧
    Erase (E := class_element) 1 v1 = UB.
Proof.
  split.
  - apply (proj1 C9_insert_then_erase_undefined Z class_element lvalue v_1_2_3 1%Z 9%Z);
      [reflexivity | exact v_1_2_3_invariant | simpl; lia | reflexivity |
       unfold Size, Capacity; simpl; lia | reflexivity].
  - apply (proj1 C9_insert_then_erase_undefined Z class_element rvalue v_1_13 1%Z 5%Z);
      [reflexivity | exact v_1_13_invariant | simpl; lia | reflexivity | reflexivity |
       repeat constructor | reflexivity].
Defined.

(** C10: assigning a vector to itself, by copy or by move, returns at once:
    the store, hence size, capacity and every element, is unchanged, and
    nothing is destroyed. *)
Theorem C10_self_assignment :
  ∀ (T : Type) (E : Element T) (σ : gmap nat (Vector T)) (this : nat),
    copy_assign this this σ = Done tt σ [] ∧ move_assign this this σ = Done tt σ [].
Proof.
  intros T E σ this. unfold copy_assign, move_assign.
  by rewrite bool_decide_eq_false_2 by (intros Hne; by apply Hne).
Qed.

(** ** Further properties of the operations *)

Section Capacity.
Context {T : Type} {E : Element T}.
Implicit Types (v : Vector T) (x : T).

(** Relocation into any block that throws at element [k]. *)
Lemma SwapCopy_relocation_throws v nd k y :
  invariant v →
  values v !! k = Some y →
  relocate_throws y = true →
  (∀ j z, j < k → values v !! j = Some z → relocate_throws z = false) →
  size_ v ≤ length (buffer_ nd) →
  ∃ v' nd', SwapCopy v nd = Throw (v', nd') (take k (values v)) ∧
    invariant v' ∧ size_ v' = size_ v ∧ Capacity v' = Capacity v ∧
    values v' = (relocated <$> take k (values v)) ++ drop k (values v) ∧
    (relocate_by_move = false → v' = v).
Proof.
  intros Hinv Hk Hy Hbefore Hlen. pose proof Hinv as (Hc & Hs & Hlive).
  rewrite values_lookup in Hk by done. case_decide as Hlt; [|done].
  assert (∀ j, j < k → ∃ z, read_at (buffer_ (data_ v)) j = Some z ∧
            relocate_throws z = false) as Hread.
  { intros j Hj. destruct (invariant_read v j Hinv) as (z & Hz & Hvz); [lia|].
    exists z. split; [done|]. by apply (Hbefore j). }
  unfold SwapCopy, CopyTo, Capacity, relocate_throws, relocated in *.
  rewrite Nat.sub_0_r.
  destruct relocate_by_move.
  - unfold uninitialized_move_n.
    destruct (uninitialized_move_from_throw 0 0 (size_ v) 0 (buffer_ (data_ v)) (buffer_ nd) k y)
      as (src1 & dst1 & -> & Hls & Hld & Hin & Hout & Hsin & Hsout);
      [lia | intros j Hj; apply Hread; lia | done | done | lia |].
    unfold rollback.
    destruct (destroy_n_ok k dst1 0) as (b' & l & -> & _ & Hll & Hlog & _).
    { intros j Hj. unfold read_at. pose proof (Hin j) as Hmv. simpl in Hmv.
      rewrite Hmv by lia. apply Hlive. lia. }
    assert (l = take k (values v)) as ->.
    { apply (log_is_prefix v); [done|lia|done|]. intros j Hj. rewrite Hlog by done. simpl.
      unfold read_at. pose proof (Hin j) as Hmv. simpl in Hmv. by rewrite Hmv by lia. }
    set (v' := set_block v src1).
    assert (invariant v') as Hinv'.
    { split_and!; [simpl; lia|simpl; lia|]. intros i Hi. simpl in Hi. simpl.
      destruct (decide (i < k)).
      - destruct (Hread i) as (z & Hz & _); [done|]. exists (moved_from z).
        apply read_at_Some. by apply (Hsin i z); [lia|].
      - unfold read_at. rewrite Hsout by (simpl; lia). by apply Hlive. }
    eexists v', _. split; [reflexivity|]. split_and!; try done.
    apply list_eq. intros i. rewrite values_lookup by done. simpl.
    assert (∀ f : T → T, length (f <$> take k (values v)) = k) as Hlp
      by (intros f; rewrite length_fmap, length_take, values_length by done; lia).
    destruct (decide (i < k)).
    + rewrite lookup_app_l by (rewrite Hlp; lia).
      rewrite list_lookup_fmap, lookup_take_lt by done.
      destruct (invariant_read v i Hinv) as (z & Hz & Hvz); [lia|].
      rewrite Hvz, decide_True by lia. simpl. apply read_at_Some. by apply (Hsin i z); [lia|].
    + rewrite lookup_app_r by (rewrite Hlp; lia).
      rewrite Hlp, lookup_drop, values_lookup by done.
      replace (k + (i - k)) with i by lia. case_decide; [|done].
      unfold read_at. by rewrite Hsout by (simpl; lia).
  - unfold uninitialized_copy_n.
    destruct (uninitialized_copy_from_throw (buffer_ (data_ v)) 0 0 (size_ v) 0 (buffer_ nd) k y)
      as (dst1 & -> & Hld & Hin & Hout);
      [lia | intros j Hj; apply Hread; lia | done | done | lia |].
    unfold rollback.
    destruct (destroy_n_ok k dst1 0) as (b' & l & -> & _ & Hll & Hlog & _).
    { intros j Hj. unfold read_at. pose proof (Hin j) as Hcp. simpl in Hcp.
      rewrite Hcp by lia. apply Hlive. lia. }
    assert (l = take k (values v)) as ->.
    { apply (log_is_prefix v); [done|lia|done|]. intros j Hj. rewrite Hlog by done. simpl.
      unfold read_at. pose proof (Hin j) as Hcp. simpl in Hcp. by rewrite Hcp by lia. }
    eexists v, _. split; [reflexivity|]. split_and!; try done.
    by rewrite list_fmap_id, take_drop.
Qed.

(** Value construction that runs past the end of the block. *)
Lemma uninitialized_value_construct_from_overflow d first n : ∀ k (b : list (option T)),
  value_init = Some d →
  0 < n →
  length b < first + k + n →
  uninitialized_value_construct_from b first k n = UB.
Proof.
  induction n as [|n IH]; intros k b Hd Hn Hlen; [lia|]. simpl. rewrite Hd.
  unfold construct_at. case_bool_decide as Hin; [|done].
  apply IH; [done|lia|]. rewrite length_insert. lia.
Qed.

(** Relocation into a block that is too short for the elements. *)
Lemma uninitialized_copy_from_overflow src first d_first n : ∀ k (dst : list (option T)),
  (∀ j, k ≤ j < k + n →
     ∃ x, read_at src (first + j) = Some x ∧ copy_throws x = false) →
  d_first + k ≤ length dst →
  length dst < d_first + k + n →
  uninitialized_copy_from src first dst d_first k n = UB.
Proof.
  induction n as [|n IH]; intros k dst Hsrc Hle Hlt; [lia|]. simpl.
  destruct (Hsrc k) as (x & -> & ->); [lia|].
  unfold construct_at. case_bool_decide as Hin; [|done].
  apply IH; [intros j Hj; apply Hsrc; lia | rewrite length_insert; lia..].
Qed.

Lemma uninitialized_move_from_overflow first d_first n : ∀ k (src dst : list (option T)),
  (∀ j, k ≤ j < k + n →
     ∃ x, read_at src (first + j) = Some x ∧ move_throws x = false) →
  d_first + k ≤ length dst →
  length dst < d_first + k + n →
  uninitialized_move_from src first dst d_first k n = UB.
Proof.
  induction n as [|n IH]; intros k src dst Hsrc Hle Hlt; [lia|]. simpl.
  destruct (Hsrc k) as (x & -> & ->); [lia|].
  unfold construct_at. case_bool_decide as Hin; [|done].
  apply IH; [|rewrite length_insert; lia..].
  intros j Hj. rewrite read_at_insert_ne by lia. apply Hsrc. lia.
Qed.

Lemma SwapCopy_overflow v nd :
  invariant v →
  Forall (λ y, relocate_throws y = false) (values v) →
  length (buffer_ nd) < size_ v →
  SwapCopy v nd = UB.
Proof.
  intros Hinv Hnt Hlen.
  assert (∀ j, 0 ≤ j < 0 + (size_ v - 0) →
            ∃ x, read_at (buffer_ (data_ v)) (0 + j) = Some x ∧ relocate_throws x = false)
    as Hsrc.
  { intros j Hj. destruct (invariant_read v j) as (x & Hx & _); [done|lia|].
    exists x. split; [done|].
    apply (values_Forall (λ y, relocate_throws y = false) v Hinv Hnt j x); [lia|done]. }
  unfold SwapCopy, CopyTo, relocate_throws in *. destruct relocate_by_move.
  - unfold uninitialized_move_n.
    by rewrite uninitialized_move_from_overflow by (done || lia).
  - unfold uninitialized_copy_n.
    by rewrite uninitialized_copy_from_overflow by (done || lia).
Qed.

(** [Reserve] either has no defined result (the byte count wrapped and the
    block is too short for the elements) or returns with the size unchanged
    and a block of at most [max capacity new_capacity] slots. *)
Lemma Reserve_block new_capacity v :
  invariant v →
  Forall (λ y, relocate_throws y = false) (values v) →
  Reserve new_capacity v = UB ∨
  ∃ v' l, Reserve new_capacity v = Done tt v' l ∧ size_ v' = size_ v ∧
    length (buffer_ (data_ v')) ≤ Capacity v `max` new_capacity.
Proof.
  intros Hinv Hnt. pose proof Hinv as (Hc & Hs & _).
  unfold Reserve, Capacity. case_bool_decide as Hcap.
  { right. exists v, []. split_and!; [done|done|lia]. }
  pose proof (requested_slots_le new_capacity) as Hslots.
  destruct (decide (size_ v ≤ requested_slots new_capacity)) as [Hfit|Hshort].
  - right. destruct (SwapCopy_ok v (RawMemory_new new_capacity))
      as (v' & nd' & l & -> & Hs' & Hc' & Hl' & _); [done|done|..].
    { simpl. by rewrite Allocate_length. }
    simpl in Hl'. rewrite Allocate_length in Hl'.
    exists v', l. split_and!; [done|done|lia].
  - left. rewrite SwapCopy_overflow; [done..|].
    simpl. rewrite Allocate_length. lia.
Qed.

Lemma PopBack_ok v :
  invariant v → size_ v ≠ 0 →
  ∃ v' x, PopBack v = Done tt v' [x] ∧
    invariant v' ∧ S (size_ v') = size_ v ∧ Capacity v' = Capacity v ∧
    values v = values v' ++ [x].
Proof.
  intros Hinv Hne. pose proof Hinv as (Hc & Hs & Hlive).
  unfold PopBack, Capacity. rewrite bool_decide_eq_false_2 by done.
  destruct (invariant_read v (size_ v - 1) Hinv) as (x & Hx & Hvx); [lia|].
  rewrite (destroy_at_Some _ _ _ Hx).
  set (v' := mkVector (with_buffer (data_ v) (<[size_ v - 1 := None]> (buffer_ (data_ v))))
                (size_ v - 1)).
  assert (invariant v') as Hinv'.
  { split_and!; [simpl; by rewrite length_insert|simpl; lia|].
    intros i Hi. simpl in Hi. simpl. rewrite read_at_insert_ne by lia. apply Hlive. lia. }
  exists v', x. split_and!; try done; [simpl; lia|].
  apply snoc_by_lookup.
  - rewrite !values_length by done. simpl. lia.
  - intros i. rewrite values_length by done. simpl. intros Hi.
    rewrite !values_lookup by done. simpl. rewrite !decide_True by lia.
    by rewrite read_at_insert_ne by lia.
  - rewrite values_length by done. simpl. exact Hvx.
Qed.

Lemma Resize_down_ok new_size v :
  invariant v → new_size < size_ v →
  ∃ v', Resize new_size v = Done tt v' (drop new_size (values v)) ∧
    invariant v' ∧ size_ v' = new_size ∧ Capacity v' = Capacity v ∧
    values v' = take new_size (values v).
Proof.
  intros Hinv Hlt. pose proof Hinv as (Hc & Hs & Hlive).
  unfold Resize, Capacity. rewrite bool_decide_eq_true_2 by done.
  destruct (destroy_n_ok (size_ v - new_size) (buffer_ (data_ v)) new_size)
    as (b & l & -> & Hlb & Hll & Hlog & Hin & Hout).
  { intros j Hj. apply Hlive. lia. }
  set (v' := mkVector (with_buffer (data_ v) b) new_size).
  assert (invariant v') as Hinv'.
  { split_and!; [simpl; lia|simpl; lia|]. intros i Hi. simpl in Hi. simpl.
    unfold read_at. rewrite Hout by lia. apply Hlive. lia. }
  assert (l = drop new_size (values v)) as ->.
  { apply list_eq. intros j. rewrite lookup_drop, values_lookup by done.
    destruct (decide (j < size_ v - new_size)).
    - rewrite Hlog by done. by rewrite decide_True by lia.
    - rewrite lookup_ge_None_2 by lia. by rewrite decide_False by lia. }
  exists v'. split_and!; try done.
  apply list_eq. intros i. rewrite lookup_take, !values_lookup by done. simpl.
  destruct (decide (i < new_size)); [|done]. rewrite decide_True by lia.
  unfold read_at. by rewrite Hout by lia.
Qed.

End Capacity.

(** X1: [Reserve] on a vector satisfying the invariant, when relocation does
    not throw and, if a new block is needed, the byte count
    [new_capacity * sizeof(T)] fits [size_t], returns with the same size and
    elements and with capacity [max capacity new_capacity]; if the capacity
    already suffices the vector is returned as it is and nothing is
    destroyed, whatever [new_capacity * sizeof(T)] is. *)
Theorem X1_reserve :
  ∀ (T : Type) (E : Element T) (v : Vector T) (new_capacity : nat),
    invariant v →
    Forall (λ y, relocate_throws y = false) (values v) →
    (Capacity v < new_capacity → fits_size_t new_capacity) →
    ∃ v' l, Reserve new_capacity v = Done tt v' l ∧
      invariant v' ∧ Size v' = Size v ∧ values v' = values v ∧
      Capacity v' = Capacity v `max` new_capacity ∧
      (new_capacity ≤ Capacity v → v' = v ∧ l = []).
Proof.
  intros T E v n Hinv Hnt Hfit.
  destruct (Reserve_ok n v Hinv Hnt Hfit) as (v' & l & Hrun & Hinv' & Hs & Hv & Hc).
  exists v', l. split_and!; try done.
  - rewrite Hc. case_bool_decide; lia.
  - intros Hle. unfold Reserve, Capacity in *.
    rewrite bool_decide_eq_true_2 in Hrun by done. by simplify_eq.
Qed.

Lemma X1_reserve_witness :
  ∃ v' l, Reserve (E := int_element) 10 v_1_2_3 = Done tt v' l ∧
    invariant v' ∧ Size v' = Size v_1_2_3 ∧ values v' = values v_1_2_3 ∧
    Capacity v' = Capacity v_1_2_3 `max` 10 ∧
    (10 ≤ Capacity v_1_2_3 → v' = v_1_2_3 ∧ l = []).
Proof.
  apply (X1_reserve Z int_element v_1_2_3 10 v_1_2_3_invariant);
    [repeat constructor | intros _; reflexivity].
Defined.

(** X2: when [Reserve] has to reallocate, the byte count
    [new_capacity * sizeof(T)] fits [size_t] and relocating element [k]
    throws, the exception escapes after the [k] objects already built in the
    new block were destroyed; size and capacity are unchanged; under
    relocation by copy the vector is exactly as before, under relocation by
    move the first [k] elements are left moved-from. *)
Theorem X2_reserve_relocation_throws :
  ∀ (T : Type) (E : Element T) (v : Vector T) (new_capacity k : nat) (y : T),
    invariant v →
    Capacity v < new_capacity →
    fits_size_t new_capacity →
    values v !! k = Some y →
    relocate_throws y = true →
    (∀ j z, j < k → values v !! j = Some z → relocate_throws z = false) →
    ∃ v', Reserve new_capacity v = Throw v' (take k (values v)) ∧
      invariant v' ∧ Size v' = Size v ∧ Capacity v' = Capacity v ∧
      values v' = (relocated <$> take k (values v)) ++ drop k (values v) ∧
      (relocate_by_move = false → v' = v).
Proof.
  intros T E v n k y Hinv Hcap Hfit Hk Hy Hbefore. pose proof Hinv as (Hc & Hs & _).
  unfold Reserve, Capacity in *. rewrite bool_decide_eq_false_2 by lia.
  destruct (SwapCopy_relocation_throws v (RawMemory_new n) k y Hinv Hk Hy Hbefore)
    as (v' & nd' & -> & Hrest).
  { simpl. rewrite Allocate_length, requested_slots_fits by done. lia. }
  by exists v'.
Qed.

Lemma X2_reserve_relocation_throws_witness :
  ∃ v', Reserve (E := throwing_copy_element) 5 v_1_13 = Throw v' (take 1 (values v_1_13)) ∧
    invariant v' ∧ Size v' = Size v_1_13 ∧ Capacity v' = Capacity v_1_13 ∧
    values v' =
      (relocated (E := throwing_copy_element) <$> take 1 (values v_1_13)) ++
      drop 1 (values v_1_13) ∧
    (relocate_by_move (E := throwing_copy_element) = false → v' = v_1_13).
Proof.
  apply (X2_reserve_relocation_throws Z throwing_copy_element v_1_13 5 1 13%Z
           v_1_13_invariant).
  - unfold Capacity. simpl. lia.
  - reflexivity.
  - reflexivity.
  - reflexivity.
  - intros [|j] z Hj Hz; [|lia]. vm_compute in Hz. injection Hz as <-. reflexivity.
Defined.

(** X3: [PopBack] on an empty vector returns it unchanged; on a non-empty
    vector satisfying the invariant it destroys exactly the last element,
    the size drops by one, the other elements and the capacity stay. *)
Theorem X3_pop_back :
  ∀ (T : Type) (v : Vector T),
    invariant v →
    (size_ v = 0 → PopBack v = Done tt v []) ∧
    (size_ v ≠ 0 →
     ∃ v' x, PopBack v = Done tt v' [x] ∧
       invariant v' ∧ S (Size v') = Size v ∧ Capacity v' = Capacity v ∧
       values v = values v' ++ [x]).
Proof.
  intros T v Hinv. split.
  - intros Hz. unfold PopBack. by rewrite bool_decide_eq_true_2.
  - intros Hne. by apply PopBack_ok.
Qed.

Lemma X3_pop_back_witness :
  PopBack (T := Z) Vector_default = Done tt Vector_default [] ∧
  ∃ v' x, PopBack v_1_2_3 = Done tt v' [x] ∧
    invariant v' ∧ S (Size v') = Size v_1_2_3 ∧ Capacity v' = Capacity v_1_2_3 ∧
    values v_1_2_3 = values v' ++ [x].
Proof.
  split.
  - by apply (X3_pop_back Z Vector_default Vector_default_invariant).
  - by apply (X3_pop_back Z v_1_2_3 v_1_2_3_invariant).
Defined.

(** X4: [PushBack] followed by [PopBack] gives back the size and the
    elements the vector had, and the object destroyed by [PopBack] is the
    one pushed. *)
Theorem X4_push_then_pop :
  ∀ (T : Type) (E : Element T) (v : Vector T) (x : T),
    invariant v →
    copy_throws x = false →
    Forall (λ y, relocate_throws y = false) (values v) →
    ∃ v1 l1 v2,
      PushBack x v = Done tt v1 l1 ∧ PopBack v1 = Done tt v2 [x] ∧
      invariant v2 ∧ Size v2 = Size v ∧ values v2 = values v.
Proof.
  intros T E v x Hinv Hx Hnt.
  destruct (PushBack_ok x v Hinv Hx Hnt) as (v1 & l1 & Hpush & Hinv1 & Hs1 & Hv1 & _).
  destruct (PopBack_ok v1 Hinv1) as (v2 & x' & Hpop & Hinv2 & Hs2 & _ & Hv2); [lia|].
  rewrite Hv1 in Hv2. apply app_inj_tail in Hv2 as [Hv2 <-].
  exists v1, l1, v2. split_and!; try done. unfold Size. lia.
Qed.

Lemma X4_push_then_pop_witness :
  ∃ v1 l1 v2,
    PushBack (E := int_element) 13%Z v_1_13 = Done tt v1 l1 ∧
    PopBack v1 = Done tt v2 [13%Z] ∧
    invariant v2 ∧ Size v2 = Size v_1_13 ∧ values v2 = values v_1_13.
Proof.
  apply (X4_push_then_pop Z int_element v_1_13 13%Z v_1_13_invariant);
    [reflexivity | repeat constructor].
Defined.

(** X5: [Resize] to a size not above the current one never reallocates: it
    destroys exactly the elements from [new_size] on, keeps the first
    [new_size] elements and the capacity, and with [new_size = size] returns
    the vector as it is. *)
Theorem X5_resize_down :
  ∀ (T : Type) (E : Element T) (v : Vector T) (new_size : nat),
    invariant v →
    new_size ≤ size_ v →
    ∃ v', Resize new_size v = Done tt v' (drop new_size (values v)) ∧
      invariant v' ∧ Size v' = new_size ∧ Capacity v' = Capacity v ∧
      values v' = take new_size (values v) ∧
      (new_size = size_ v → v' = v).
Proof.
  intros T E v n Hinv Hle. destruct (decide (n = size_ v)) as [->|Hne].
  - exists v. pose proof Hinv as (Hc & Hs & _).
    rewrite drop_ge, take_ge by (rewrite values_length by done; lia).
    split_and!; try done.
    unfold Resize, Reserve. rewrite bool_decide_eq_false_2 by lia.
    rewrite bool_decide_eq_true_2 by done. rewrite Nat.sub_diag. simpl.
    unfold with_buffer. by rewrite Vector_eta.
  - destruct (Resize_down_ok n v Hinv) as (v' & ? & ? & ? & ? & ?); [lia|].
    exists v'. split_and!; try done.
Qed.

Lemma X5_resize_down_witness :
  ∃ v', Resize (E := int_element) 1 v_1_2_3 = Done tt v' (drop 1 (values v_1_2_3)) ∧
    invariant v' ∧ Size v' = 1 ∧ Capacity v' = Capacity v_1_2_3 ∧
    values v' = take 1 (values v_1_2_3) ∧
    (1 = size_ v_1_2_3 → v' = v_1_2_3).
Proof.
  apply (X5_resize_down Z int_element v_1_2_3 1 v_1_2_3_invariant). simpl. lia.
Defined.

(** X6: [Resize] to a larger size value-constructs [new_size - size] objects
    starting at slot [new_size].  Unless the capacity is at least
    [2 * new_size - size] the construction runs past the block and the call
    has no defined result; otherwise it returns with size [new_size], the
    slots [[new_size, 2 * new_size - size)] value-constructed and every other
    slot, those of [[size, new_size)] included, left as it was. *)
Theorem X6_resize_up :
  ∀ (T : Type) (E : Element T) (v : Vector T) (new_size : nat) (d : T),
    invariant v →
    size_ v < new_size →
    value_init = Some d →
    Forall (λ y, relocate_throws y = false) (values v) →
    (Capacity v < 2 * new_size - size_ v → Resize new_size v = UB) ∧
    (2 * new_size - size_ v ≤ Capacity v →
     ∃ v', Resize new_size v = Done tt v' [] ∧
       Size v' = new_size ∧ Capacity v' = Capacity v ∧
       (∀ i, new_size ≤ i < 2 * new_size - size_ v →
          buffer_ (data_ v') !! i = Some (Some d)) ∧
       (∀ i, ¬ (new_size ≤ i < 2 * new_size - size_ v) →
          buffer_ (data_ v') !! i = buffer_ (data_ v) !! i)).
Proof.
  intros T E v n d Hinv Hlt Hd Hnt. pose proof Hinv as (Hc & Hs & _).
  unfold Capacity in *. split.
  - intros Hsmall. unfold Resize. rewrite bool_decide_eq_false_2 by lia.
    destruct (Reserve_block n v Hinv Hnt) as [->|(v1 & l & -> & Hs1 & Hl1)]; [done|].
    unfold uninitialized_value_construct_n.
    rewrite (uninitialized_value_construct_from_overflow d); [done|done|lia|].
    unfold Capacity in Hl1. lia.
  - intros Hbig. unfold Resize, Reserve. rewrite bool_decide_eq_false_2 by lia.
    rewrite bool_decide_eq_true_2 by lia. unfold uninitialized_value_construct_n.
    destruct (uninitialized_value_construct_from_ok d n (n - size_ v) 0 (buffer_ (data_ v)))
      as (b & -> & Hl & Hin & Hout); [done|lia|].
    eexists. split; [reflexivity|]. simpl. split_and!; try done.
    + intros i Hi. apply Hin. lia.
    + intros i Hi. apply Hout. lia.
Qed.

Lemma X6_resize_up_witness :
  Resize (E := int_element) 3 Vector_default = UB ∧
  ∃ v', Resize (E := int_element) 3 v_reserved_6 = Done tt v' [] ∧
    Size v' = 3 ∧ Capacity v' = Capacity v_reserved_6 ∧
    (∀ i, 3 ≤ i < 2 * 3 - size_ v_reserved_6 →
       buffer_ (data_ v') !! i = Some (Some 0%Z)) ∧
    (∀ i, ¬ (3 ≤ i < 2 * 3 - size_ v_reserved_6) →
       buffer_ (data_ v') !! i = buffer_ (data_ v_reserved_6) !! i).
Proof.
  split.
  - apply (X6_resize_up Z int_element Vector_default 3 0%Z Vector_default_invariant);
      [simpl; lia | reflexivity | constructor | unfold Capacity; simpl; lia].
  - apply (X6_resize_up Z int_element v_reserved_6 3 0%Z v_reserved_6_invariant);
      [simpl; lia | reflexivity | constructor | unfold Capacity; simpl; lia].
Defined.

(** ** Shapes of the results of [Emplace], reading and construction *)

Section Shapes.
Context {T : Type} {E : Element T}.
Implicit Types (v : Vector T) (x : T).

Lemma CopyTo_Done_shape v nd from to pos r v' nd' l :
  CopyTo v nd from to pos = Done r (v', nd') l →
  capacity_ nd' = capacity_ nd ∧ capacity_ (data_ v') = capacity_ (data_ v) ∧
  size_ v' = size_ v.
Proof.
  unfold CopyTo. intros H. repeat case_match; simplify_eq; done.
Qed.

(** Whenever [Emplace] returns from a position inside the range, the
    capacity is the old one if there was room and the grown one if not. *)
Lemma Emplace_Done_capacity pos args v r v' l :
  Emplace pos args v = Done r v' l →
  in_range pos v = true →
  Capacity v' =
    (if bool_decide (Size v = Capacity v) then 1 `max` (2 * Size v) else Capacity v).
Proof.
  unfold Emplace, Capacity, Size. intros H Hr. rewrite Hr in H. cbv zeta in H.
  case_bool_decide as Hfull.
  - assert ((if bool_decide (size_ v = 0) then 1 else size_ v * 2) = 1 `max` (2 * size_ v))
      as Hc by (case_bool_decide; lia).
    rewrite <-Hc.
    repeat case_match; simplify_eq;
      repeat match goal with
             | Hd : CopyTo _ _ _ _ _ = Done _ _ _ |- _ =>
                 apply CopyTo_Done_shape in Hd as (? & ? & ?)
             end;
      unfold RawMemory_Swap in *; simplify_eq; simpl in *; congruence.
  - repeat case_match; simplify_eq; done.
Qed.

Lemma index_values v i : invariant v → index v i = values v !! i.
Proof.
  intros Hinv. pose proof Hinv as (Hc & Hs & _). rewrite values_lookup by done.
  unfold index, RawMemory_index. case_bool_decide; [|by rewrite decide_False].
  rewrite decide_True by done. by rewrite bool_decide_eq_true_2 by lia.
Qed.

Lemma Vector_copy_throw_log other k y :
  invariant other →
  values other !! k = Some y →
  copy_throws y = true →
  (∀ j z, j < k → values other !! j = Some z → copy_throws z = false) →
  Vector_copy other = Throw tt (take k (values other)).
Proof.
  intros Hinv Hk Hy Hbefore. pose proof Hinv as (_ & _ & Hlive).
  unfold Vector_copy, uninitialized_copy_n.
  rewrite values_lookup in Hk by done. case_decide as Hlt; [|done].
  destruct (uninitialized_copy_from_throw (buffer_ (data_ other)) 0 0 (size_ other) 0
              (buffer_ (RawMemory_for_live (size_ other))) k y) as (dst1 & -> & Hl & Hin & _);
    try done.
  { lia. }
  { intros j Hj. destruct (invariant_read other j Hinv) as (z & Hz & Hvz); [lia|].
    exists z. split; [done|]. eapply Hbefore; [|done]. lia. }
  { simpl. unfold raw_block. rewrite length_replicate. lia. }
  unfold rollback.
  destruct (destroy_n_ok k dst1 0) as (b' & l & -> & _ & Hll & Hlog & _).
  { intros j Hj. unfold read_at. pose proof (Hin j) as Hcopy. simpl in Hcopy.
    rewrite Hcopy by lia. apply Hlive. lia. }
  f_equal. apply (log_is_prefix other); [done|lia|done|].
  intros j Hj. rewrite Hlog by done. simpl. unfold read_at.
  pose proof (Hin j) as Hcopy. simpl in Hcopy. by rewrite Hcopy by lia.
Qed.

Lemma Vector_sized_ok d n :
  value_init = Some d →
  fits_size_t n →
  ∃ v, Vector_sized n = Done v tt [] ∧
    invariant v ∧ size_ v = n ∧ Capacity v = n ∧ values v = replicate n d.
Proof.
  intros Hd Hfit. unfold Vector_sized, uninitialized_value_construct_n, Capacity.
  pose proof (requested_slots_fits n Hfit) as Hslots.
  destruct (uninitialized_value_construct_from_ok d 0 n 0 (buffer_ (RawMemory_new n)))
    as (b & -> & Hl & Hin & _);
    [done | simpl; rewrite Allocate_length; lia |].
  simpl in Hl. rewrite Allocate_length, Hslots in Hl.
  set (v := mkVector (with_buffer (RawMemory_new n) b) n).
  assert (invariant v) as Hinv.
  { split_and!; [simpl; lia|simpl; lia|]. intros i Hi. simpl in Hi. exists d.
    apply read_at_Some. simpl. apply Hin. lia. }
  exists v. split_and!; try done.
  apply list_eq. intros i. rewrite values_lookup by done. simpl.
  case_decide.
  - rewrite lookup_replicate_2 by done. apply read_at_Some, Hin. lia.
  - symmetry. apply lookup_ge_None_2. rewrite length_replicate. lia.
Qed.

End Shapes.

(** X7: [Erase] at a position of [[begin(), end())], on a vector satisfying
    the invariant.  At the last element, or for a trivially copyable type,
    when no move assignment of a later element throws, it returns that
    position, destroys exactly the element that was there, leaves the other
    elements in order, the size one less and the capacity as it was.  Before
    the last element and for a type that is not trivially copyable the call
    has no defined result: the first move assignment goes into the slot
    whose object was just destroyed. *)
Theorem X7_erase_inside :
  ∀ (T : Type) (E : Element T) (v : Vector T) (pos : Z),
    invariant v →
    (0 ≤ pos < Z.of_nat (size_ v))%Z →
    (is_trivially_copyable = true ∨ S (Z.to_nat pos) = size_ v →
     Forall (λ y, move_assign_throws y = false) (drop (S (Z.to_nat pos)) (values v)) →
     ∃ v' x, Erase pos v = Done pos v' [x] ∧
       values v !! Z.to_nat pos = Some x ∧
       invariant v' ∧ S (Size v') = Size v ∧ Capacity v' = Capacity v ∧
       values v' = delete (Z.to_nat pos) (values v)) ∧
    (is_trivially_copyable = false → S (Z.to_nat pos) < size_ v → Erase pos v = UB).
Proof.
  intros T E v pos Hinv Hpos. split.
  - intros Hassign Hnt. by apply Erase_ok.
  - intros Htriv Hlast. apply Erase_destroyed_slot; [done|lia|done|done].
Qed.

Lemma X7_erase_inside_witness :
  (∃ v' x, Erase (E := int_element) 1 v_1_2_3 = Done 1%Z v' [x] ∧
     values v_1_2_3 !! Z.to_nat 1 = Some x ∧
     invariant v' ∧ S (Size v') = Size v_1_2_3 ∧ Capacity v' = Capacity v_1_2_3 ∧
     values v' = delete (Z.to_nat 1) (values v_1_2_3)) ∧
  (∃ v' x, Erase (E := class_element) 2 v_1_2_3 = Done 2%Z v' [x] ∧
     values v_1_2_3 !! Z.to_nat 2 = Some x ∧
     invariant v' ∧ S (Size v') = Size v_1_2_3 ∧ Capacity v' = Capacity v_1_2_3 ∧
     values v' = delete (Z.to_nat 2) (values v_1_2_3)) ∧
  Erase (E := class_element) 1 v_1_2_3 = UB.
Proof.
  split_and!.
  - apply (X7_erase_inside Z int_element v_1_2_3 1%Z v_1_2_3_invariant);
      [simpl; lia | by left | repeat constructor].
  - apply (X7_erase_inside Z class_element v_1_2_3 2%Z v_1_2_3_invariant);
      [simpl; lia | by right | repeat constructor].
  - apply (X7_erase_inside Z class_element v_1_2_3 1%Z v_1_2_3_invariant);
      [simpl; lia | reflexivity | simpl; lia].
Defined.

(** X8: [Emplace] at a position of [[begin(), end()]], on a vector
    satisfying the invariant and when nothing throws.  On the growth path,
    at [end()], or for a trivially copyable type, it returns that position
    with the new element there and the old elements around it in order; the
    capacity is unchanged if there was room and [max 1 (2 * size)] if not;
    at [end()] the elements are those [EmplaceBack] would leave.  With room
    left, before [end()], for a type that is not trivially copyable and with
    no object in the slot at [end()], the call has no defined result: the
    last element is move-assigned into that slot. *)
Theorem X8_emplace :
  ∀ (T : Type) (E : Element T) (v : Vector T) (pos : Z) (x : T),
    invariant v →
    (0 ≤ pos ≤ Z.of_nat (size_ v))%Z →
    (is_trivially_copyable = true ∨ Size v = Capacity v ∨ pos = Z.of_nat (size_ v) →
     Forall (λ y, relocate_throws y = false ∧ move_assign_throws y = false) (values v) →
     move_throws x = false →
     ∃ v' l, Emplace pos (Some x) v = Done pos v' l ∧
       invariant v' ∧ Size v' = S (Size v) ∧
       values v' = take (Z.to_nat pos) (values v) ++ x :: drop (Z.to_nat pos) (values v) ∧
       Capacity v' =
         (if bool_decide (Size v = Capacity v) then 1 `max` (2 * Size v) else Capacity v) ∧
       (pos = Z.of_nat (size_ v) →
        ∃ v'' l'', EmplaceBack (Some x) v = Done (size_ v) v'' l'' ∧ values v'' = values v')) ∧
    (is_trivially_copyable = false →
     Size v ≠ Capacity v →
     (pos < Z.of_nat (size_ v))%Z →
     read_at (buffer_ (data_ v)) (size_ v) = None →
     Emplace pos (Some x) v = UB).
Proof.
  intros T E v pos x Hinv Hpos. split.
  - intros Hassign Hnt Hmx.
    destruct (Emplace_ok pos x v Hinv Hpos Hnt Hmx Hassign)
      as (v' & l & Hrun & Hinv' & Hs & Hv).
    exists v', l. split_and!; try done.
    + eapply Emplace_Done_capacity; [exact Hrun|]. by apply in_range_true.
    + intros ->. destruct (EmplaceBack_ok x v Hinv) as (v'' & l'' & Hrun' & _ & _ & Hv'' & _).
      { eapply Forall_impl; [exact Hnt|]. by intros y [? _]. }
      exists v'', l''. split; [done|]. rewrite Hv'', Hv, Nat2Z.id.
      rewrite take_ge, drop_ge by (rewrite values_length by done; lia). done.
  - intros Htriv Hroom Hlt Hraw. apply Emplace_raw_slot; [done|lia|done|done|done].
Qed.

Lemma X8_emplace_witness :
  (∃ v' l, Emplace (E := int_element) 1 (Some 9%Z) v_1_2_3 = Done 1%Z v' l ∧
     invariant v' ∧ Size v' = S (Size v_1_2_3) ∧
     values v' =
       take (Z.to_nat 1) (values v_1_2_3) ++ 9%Z :: drop (Z.to_nat 1) (values v_1_2_3) ∧
     Capacity v' =
       (if bool_decide (Size v_1_2_3 = Capacity v_1_2_3) then 1 `max` (2 * Size v_1_2_3)
        else Capacity v_1_2_3) ∧
     (1%Z = Z.of_nat (size_ v_1_2_3) →
      ∃ v'' l'', EmplaceBack (E := int_element) (Some 9%Z) v_1_2_3 =
                   Done (size_ v_1_2_3) v'' l'' ∧ values v'' = values v')) ∧
  (∃ v' l, Emplace (E := class_element) 3 (Some 9%Z) v_1_2_3 = Done 3%Z v' l ∧
     invariant v' ∧ Size v' = S (Size v_1_2_3) ∧
     values v' =
       take (Z.to_nat 3) (values v_1_2_3) ++ 9%Z :: drop (Z.to_nat 3) (values v_1_2_3) ∧
     Capacity v' =
       (if bool_decide (Size v_1_2_3 = Capacity v_1_2_3) then 1 `max` (2 * Size v_1_2_3)
        else Capacity v_1_2_3) ∧
     (3%Z = Z.of_nat (size_ v_1_2_3) →
      ∃ v'' l'', EmplaceBack (E := class_element) (Some 9%Z) v_1_2_3 =
                   Done (size_ v_1_2_3) v'' l'' ∧ values v'' = values v')) ∧
  Emplace (E := class_element) 1 (Some 9%Z) v_1_2_3 = UB.
Proof.
  split_and!.
  - apply (X8_emplace Z int_element v_1_2_3 1%Z 9%Z v_1_2_3_invariant);
      [simpl; lia | by left | repeat constructor | reflexivity].
  - apply (X8_emplace Z class_element v_1_2_3 3%Z 9%Z v_1_2_3_invariant);
      [simpl; lia | by right; right | repeat constructor | reflexivity].
  - apply (X8_emplace Z class_element v_1_2_3 1%Z 9%Z v_1_2_3_invariant);
      [simpl; lia | reflexivity | unfold Size, Capacity; simpl; lia | simpl; lia | reflexivity].
Defined.

(** X10: [Vector(size)] with [size = 0] is the empty vector whatever the
    element type; when value initialisation yields [d] and the byte count
    [size * sizeof(T)] fits [size_t] it is a vector of [size] copies of [d]
    with capacity [size]; when value initialisation yields a value and the
    byte count wraps to fewer than [size] slots the construction runs past
    the block and the call has no defined result; when value initialisation
    throws and [size > 0] the constructor throws with nothing built. *)
Theorem X10_sized_constructor :
  ∀ (T : Type) (E : Element T) (size : nat),
    (size = 0 → Vector_sized size = Done Vector_default tt []) ∧
    (∀ d, value_init = Some d → fits_size_t size →
       ∃ v, Vector_sized size = Done v tt [] ∧
         invariant v ∧ Size v = size ∧ Capacity v = size ∧ values v = replicate size d) ∧
    (∀ d, value_init = Some d → requested_slots size < size → Vector_sized size = UB) ∧
    (value_init = None → 0 < size → Vector_sized size = Throw tt []).
Proof.
  intros T E n. split_and!.
  - by intros ->.
  - intros d Hd Hfit. by apply Vector_sized_ok.
  - intros d Hd Hwrap. unfold Vector_sized, uninitialized_value_construct_n.
    rewrite (uninitialized_value_construct_from_overflow d); [done|done|lia|].
    simpl. rewrite Allocate_length. lia.
  - intros Hnone Hn. unfold Vector_sized, uninitialized_value_construct_n.
    destruct n as [|n]; [lia|]. simpl. by rewrite Hnone.
Qed.

Lemma X10_sized_constructor_witness :
  Vector_sized (E := throwing_default_element) 0 = Done Vector_default tt [] ∧
  (∃ v, Vector_sized (E := int_element) 3 = Done v tt [] ∧
     invariant v ∧ Size v = 3 ∧ Capacity v = 3 ∧ values v = replicate 3 0%Z) ∧
  Vector_sized (E := huge_element) 8 = UB ∧
  Vector_sized (E := throwing_default_element) 3 = Throw tt [].
Proof.
  split_and!.
  - by apply (X10_sized_constructor Z throwing_default_element 0).
  - by apply (X10_sized_constructor Z int_element 3).
  - apply (proj1 (proj2 (proj2 (X10_sized_constructor Z huge_element 8))) 0%Z);
      [reflexivity | vm_compute; lia].
  - apply (X10_sized_constructor Z throwing_default_element 3); [reflexivity|lia].
Defined.

(** X11: the copy constructor, on a source satisfying the invariant: when no
    copy throws the new vector has the source's elements and a capacity
    equal to the source's size; when the copy of element [k] throws, the
    constructor throws after destroying exactly the [k] copies made. *)
Theorem X11_copy_constructor :
  ∀ (T : Type) (E : Element T) (other : Vector T),
    invariant other →
    (Forall (λ y, copy_throws y = false) (values other) →
     ∃ c, Vector_copy other = Done c tt [] ∧
       invariant c ∧ Size c = Size other ∧ Capacity c = Size other ∧
       values c = values other) ∧
    (∀ k y,
       values other !! k = Some y →
       copy_throws y = true →
       (∀ j z, j < k → values other !! j = Some z → copy_throws z = false) →
       Vector_copy other = Throw tt (take k (values other))).
Proof.
  intros T E other Hinv. split.
  - intros Hnt. by apply Vector_copy_ok.
  - intros k y. by apply Vector_copy_throw_log.
Qed.

Lemma X11_copy_constructor_witness :
  (∃ c, Vector_copy (E := int_element) v_1_2_3 = Done c tt [] ∧
     invariant c ∧ Size c = Size v_1_2_3 ∧ Capacity c = Size v_1_2_3 ∧
     values c = values v_1_2_3) ∧
  Vector_copy (E := throwing_copy_element) v_1_13 = Throw tt (take 1 (values v_1_13)).
Proof.
  split.
  - apply (X11_copy_constructor Z int_element v_1_2_3 v_1_2_3_invariant).
    repeat constructor.
  - apply (proj2 (X11_copy_constructor Z throwing_copy_element v_1_13 v_1_13_invariant)
             1 13%Z); [reflexivity | reflexivity |].
    intros [|j] z Hj Hz; [|lia]. vm_compute in Hz. injection Hz as <-. reflexivity.
Defined.

(** X12: [Swap] between two objects of a store (the same object included)
    returns normally, destroys nothing, exchanges the two vectors, leaves
    every other object alone, and a second [Swap] restores the store. *)
Theorem X12_swap_twice :
  ∀ (T : Type) (σ : gmap nat (Vector T)) (this other : nat) (a b : Vector T),
    σ !! this = Some a →
    σ !! other = Some b →
    ∃ σ', Swap this other σ = Done tt σ' [] ∧
      σ' !! this = Some b ∧ σ' !! other = Some a ∧
      (∀ p, p ≠ this → p ≠ other → σ' !! p = σ !! p) ∧
      Swap this other σ' = Done tt σ [].
Proof.
  intros T σ this other a b Ha Hb.
  assert (this = other → a = b) as Hsame by (intros ->; congruence).
  exists (<[this := b]> (<[other := a]> σ)).
  assert (<[this := b]> (<[other := a]> σ) !! this = Some b) as Ha' by by simplify_map_eq.
  assert (<[this := b]> (<[other := a]> σ) !! other = Some a) as Hb'.
  { destruct (decide (this = other)) as [Heq|Hne].
    - rewrite (Hsame Heq), Heq. by simplify_map_eq.
    - by simplify_map_eq. }
  split_and!; try done.
  - by apply Swap_ok.
  - intros p ? ?. by simplify_map_eq.
  - rewrite (Swap_ok this other b a) by done. do 2 f_equal.
    apply map_eq. intros p.
    destruct (decide (p = this)) as [->|]; [by simplify_map_eq|].
    destruct (decide (p = other)) as [->|]; by simplify_map_eq.
Qed.

Lemma X12_swap_twice_witness :
  ∃ σ', Swap 1 2 store_123_113 = Done tt σ' [] ∧
    σ' !! 1 = Some v_1_13 ∧ σ' !! 2 = Some v_1_2_3 ∧
    (∀ p, p ≠ 1 → p ≠ 2 → σ' !! p = store_123_113 !! p) ∧
    Swap 1 2 σ' = Done tt store_123_113 [].
Proof.
  exact (X12_swap_twice Z store_123_113 1 2 v_1_2_3 v_1_13 eq_refl eq_refl).
Defined.

(** X13: the reference [EmplaceBack] returns is the index of the new last
    element: indexing the result there reads the new element, and every
    index that was in bounds before still reads the same element. *)
Theorem X13_index_after_emplace_back :
  ∀ (T : Type) (E : Element T) (v : Vector T) (x : T),
    invariant v →
    Forall (λ y, relocate_throws y = false) (values v) →
    ∃ r v' l, EmplaceBack (Some x) v = Done r v' l ∧
      index v' r = Some x ∧
      ∀ i, i < size_ v → index v' i = index v i.
Proof.
  intros T E v x Hinv Hnt.
  destruct (EmplaceBack_ok x v Hinv Hnt) as (v' & l & Hrun & Hinv' & Hs & Hv & _).
  exists (size_ v), v', l. split; [done|].
  split.
  - rewrite index_values, Hv by done.
    rewrite lookup_app_r by (rewrite values_length by done; lia).
    by rewrite values_length, Nat.sub_diag by done.
  - intros i Hi. rewrite !index_values, Hv by done.
    apply lookup_app_l. rewrite values_length by done. lia.
Qed.

Lemma X13_index_after_emplace_back_witness :
  ∃ r v' l, EmplaceBack (E := int_element) (Some 7%Z) v_1_13 = Done r v' l ∧
    index v' r = Some 7%Z ∧
    ∀ i, i < size_ v_1_13 → index v' i = index v_1_13 i.
Proof.
  apply (X13_index_after_emplace_back Z int_element v_1_13 7%Z v_1_13_invariant).
  repeat constructor.
Defined.

(** ** [Emplace] when relocation by copy throws on the growth path *)

Section EmplaceThrows.
Context {T : Type} {E : Element T}.
Implicit Types (v : Vector T) (x : T).

Lemma CopyTo_copy_ok v nd from to pos :
  relocate_by_move = false →
  from ≤ to →
  (∀ j, from ≤ j < to →
     ∃ x, read_at (buffer_ (data_ v)) j = Some x ∧ copy_throws x = false) →
  pos + (to - from) ≤ length (buffer_ nd) →
  ∃ b, CopyTo v nd from to pos = Done tt (v, with_buffer nd b) [] ∧
    length b = length (buffer_ nd) ∧
    (∀ j, from ≤ j < to → b !! (pos + (j - from)) = buffer_ (data_ v) !! j) ∧
    (∀ i, ¬ (pos ≤ i < pos + (to - from)) → b !! i = buffer_ nd !! i).
Proof.
  intros Hmode Hft Hsrc Hlen. unfold CopyTo, uninitialized_copy_n. rewrite Hmode.
  destruct (uninitialized_copy_from_ok (buffer_ (data_ v)) from pos (to - from) 0 (buffer_ nd))
    as (b & -> & Hl & Hin & Hout).
  { intros j Hj. apply Hsrc. lia. }
  { lia. }
  exists b. split_and!; try done.
  - intros j Hj. rewrite Hin by lia. f_equal. lia.
  - intros i Hi. apply Hout. lia.
Qed.

Lemma CopyTo_copy_throw v nd from to pos k y :
  relocate_by_move = false →
  from ≤ k < to →
  (∀ j, from ≤ j < k →
     ∃ x, read_at (buffer_ (data_ v)) j = Some x ∧ copy_throws x = false) →
  read_at (buffer_ (data_ v)) k = Some y →
  copy_throws y = true →
  pos + (k - from) ≤ length (buffer_ nd) →
  ∃ b l, CopyTo v nd from to pos = Throw (v, with_buffer nd b) l ∧
    length b = length (buffer_ nd) ∧ length l = k - from ∧
    (∀ j, j < k - from → l !! j = read_at (buffer_ (data_ v)) (from + j)) ∧
    (∀ i, pos ≤ i < pos + (k - from) → b !! i = Some None) ∧
    (∀ i, ¬ (pos ≤ i < pos + (k - from)) → b !! i = buffer_ nd !! i).
Proof.
  intros Hmode Hk Hsrc Hy Hthrow Hlen. unfold CopyTo, uninitialized_copy_n. rewrite Hmode.
  destruct (uninitialized_copy_from_throw (buffer_ (data_ v)) from pos (to - from) 0
              (buffer_ nd) (k - from) y) as (dst1 & -> & Hl & Hin & Hout).
  { lia. }
  { intros j Hj. apply Hsrc. lia. }
  { by replace (from + (k - from)) with k by lia. }
  { done. }
  { lia. }
  unfold rollback.
  destruct (destroy_n_ok (k - from) dst1 pos) as (b & l & -> & Hlb & Hll & Hlog & Hbin & Hbout).
  { intros j Hj. unfold read_at. replace j with (pos + (j - pos)) by lia.
    rewrite Hin by lia. destruct (Hsrc (from + (j - pos))) as (z & Hz & _); [lia|].
    apply read_at_Some in Hz. rewrite Hz. by eexists. }
  exists b, l. split_and!; try done.
  - lia.
  - intros j Hj. rewrite Hlog by done. unfold read_at. by rewrite Hin by lia.
  - intros i Hi. rewrite Hbout by done. apply Hout. lia.
Qed.

Lemma Emplace_copy_relocation_throws pos x v k y :
  invariant v →
  Size v = Capacity v →
  (0 ≤ pos ≤ Z.of_nat (size_ v))%Z →
  relocate_by_move = false →
  values v !! k = Some y →
  copy_throws y = true →
  (∀ j z, j < k → values v !! j = Some z → copy_throws z = false) →
  ∃ l, Emplace pos (Some x) v = Throw v l ∧ l ≡ₚ x :: take k (values v).
Proof.
  intros Hinv Hfull Hpos Hmode Hk Hy Hbefore. pose proof Hinv as (Hc & Hs & Hlive).
  unfold Size, Capacity in Hfull.
  rewrite values_lookup in Hk by done. case_decide as Hlt; [|done].
  assert (∀ j, j < k → ∃ z, read_at (buffer_ (data_ v)) j = Some z ∧
            copy_throws z = false) as Hread.
  { intros j Hj. destruct (invariant_read v j Hinv) as (z & Hz & Hvz); [lia|].
    exists z. split; [done|]. by apply (Hbefore j). }
  unfold Emplace. rewrite in_range_true by done.
  set (idx := Z.to_nat pos). assert (idx ≤ size_ v) as Hidx by lia.
  rewrite bool_decide_eq_true_2 by done.
  set (c := if bool_decide (size_ v = 0) then 1 else size_ v * 2).
  assert (size_ v < c) as Hclt by (unfold c; case_bool_decide; lia).
  unfold RawMemory_plus. simpl. rewrite bool_decide_eq_true_2 by lia.
  rewrite construct_at_Some by (unfold raw_block; rewrite length_replicate; lia).
  set (nd0 := with_buffer (RawMemory_for_live c) (<[idx := Some x]> (raw_block c))).
  assert (length (buffer_ nd0) = c) as Hl0.
  { simpl. unfold raw_block. by rewrite length_insert, length_replicate. }
  assert (buffer_ nd0 !! idx = Some (Some x)) as Hx0.
  { simpl. apply list_lookup_insert_eq. unfold raw_block. rewrite length_replicate. lia. }
  destruct (decide (k < idx)) as [Hpre|Hsuf].
  - destruct (CopyTo_copy_throw v nd0 0 idx 0 k y) as (b & l & -> & Hlb & Hll & Hlog & _ & Hout);
      [done | lia | intros j Hj; apply Hread; lia | done | done | lia |].
    simpl. rewrite bool_decide_eq_true_2 by lia.
    rewrite (destroy_at_Some b idx x).
    2:{ apply read_at_Some. rewrite Hout by lia. exact Hx0. }
    eexists. split; [reflexivity|].
    rewrite (log_is_prefix v l k); [|done|lia|lia|].
    + by rewrite <-Permutation_cons_append.
    + intros j Hj. rewrite Hlog by lia. done.
  - destruct (CopyTo_copy_ok v nd0 0 idx 0) as (b1 & -> & Hl1 & Hin1 & Hout1);
      [done | lia | intros j Hj; apply Hread; lia | lia |].
    destruct (CopyTo_copy_throw v (with_buffer nd0 b1) idx (size_ v) (idx + 1) k y)
      as (b2 & l' & -> & Hl2 & Hll' & Hlog' & _ & Hout2);
      [done | lia | intros j Hj; apply Hread; lia | done | done | simpl; lia |].
    simpl in Hl2, Hout2.
    destruct (destroy_n_ok (idx + 1) b2 0) as (b3 & l'' & Hd & _ & Hll'' & Hlog'' & _).
    { intros j Hj. unfold read_at. rewrite Hout2 by lia.
      destruct (decide (j = idx)) as [->|].
      - rewrite Hout1 by lia. rewrite Hx0. by eexists.
      - specialize (Hin1 j). rewrite Nat.sub_0_r in Hin1. simpl in Hin1.
        rewrite Hin1 by lia. apply Hlive. lia. }
    simpl. rewrite Hd. eexists. split; [reflexivity|]. simpl.
    assert (l' = take (k - idx) (drop idx (values v))) as ->.
    { apply list_eq. intros j. rewrite lookup_take, lookup_drop, values_lookup by done.
      destruct (decide (j < k - idx)).
      - rewrite Hlog' by done. by rewrite decide_True by lia.
      - by apply lookup_ge_None_2; lia. }
    assert (l'' = take idx (values v) ++ [x]) as ->.
    { assert (length (take idx (values v)) = idx) as Hlt'
        by (rewrite length_take, values_length by done; lia).
      apply snoc_by_lookup.
      - rewrite Hlt'. lia.
      - rewrite Hlt'. intros j Hj. rewrite Hlog'' by lia. simpl.
        rewrite lookup_take_lt, values_lookup by done. rewrite decide_True by lia.
        unfold read_at. rewrite Hout2 by lia.
        specialize (Hin1 j). rewrite Nat.sub_0_r in Hin1. simpl in Hin1. by rewrite Hin1 by lia.
      - rewrite Hlt', Hlog'' by lia. simpl. apply read_at_Some.
        rewrite Hout2 by lia. rewrite Hout1 by lia. exact Hx0. }
    replace k with (idx + (k - idx)) at 2 by lia.
    rewrite <-take_take_drop. solve_Permutation.
Qed.

End EmplaceThrows.

(** X9: [Emplace] on its growth path, for an element type relocated by copy:
    when the copy of element [k] throws, in the prefix or in the suffix, the
    exception escapes with the vector exactly as before, and the objects
    destroyed are the new element and the [k] copies made. *)
Theorem X9_emplace_growth_failure :
  ∀ (T : Type) (E : Element T) (v : Vector T) (pos : Z) (x : T) (k : nat) (y : T),
    invariant v →
    Size v = Capacity v →
    (0 ≤ pos ≤ Z.of_nat (size_ v))%Z →
    relocate_by_move = false →
    values v !! k = Some y →
    copy_throws y = true →
    (∀ j z, j < k → values v !! j = Some z → copy_throws z = false) →
    ∃ l, Emplace pos (Some x) v = Throw v l ∧ l ≡ₚ x :: take k (values v).
Proof. intros T E v pos x k y. apply Emplace_copy_relocation_throws. Qed.

Lemma X9_emplace_growth_failure_witness :
  ∃ l, Emplace (E := throwing_copy_element) 1 (Some 5%Z) v_1_13 = Throw v_1_13 l ∧
    l ≡ₚ 5%Z :: take 1 (values v_1_13).
Proof.
  apply (X9_emplace_growth_failure Z throwing_copy_element v_1_13 1%Z 5%Z 1 13%Z
           v_1_13_invariant).
  - reflexivity.
  - simpl. lia.
  - reflexivity.
  - reflexivity.
  - reflexivity.
  - intros [|j] z Hj Hz; [|lia]. vm_compute in Hz. injection Hz as <-. reflexivity.
Defined.

(** X14: when the constructor of the new element throws, [EmplaceBack],
    [PushBack], [Emplace] and [Insert] let the exception escape with the
    vector exactly as before and nothing destroyed, whether or not the call
    would have had to grow the block. *)
Theorem X14_constructor_failure :
  ∀ (T : Type) (E : Element T) (v : Vector T) (pos : Z) (x : T),
    size_ v ≤ Capacity v →
    EmplaceBack None v = Throw v [] ∧
    (in_range pos v = true → Emplace pos None v = Throw v []) ∧
    (copy_throws x = true →
     PushBack x v = Throw v [] ∧
     (in_range pos v = true → Insert pos x v = Throw v [])).
Proof.
  intros T E v pos x Hle. unfold Capacity in Hle.
  assert (EmplaceBack None v = Throw v []) as Hback.
  { unfold EmplaceBack, Capacity, RawMemory_plus. case_bool_decide; simpl.
    - rewrite bool_decide_eq_true_2; [done|]. case_bool_decide; lia.
    - by rewrite bool_decide_eq_true_2. }
  assert (in_range pos v = true → Emplace pos None v = Throw v []) as Hmid.
  { intros Hr. unfold Emplace, RawMemory_plus. rewrite Hr.
    unfold in_range in Hr. apply andb_true_iff in Hr as [H0%bool_decide_eq_true H1%bool_decide_eq_true].
    case_bool_decide; [|done]. simpl.
    rewrite bool_decide_eq_true_2; [done|]. case_bool_decide; lia. }
  split_and!; try done.
  intros Hx. unfold PushBack, Insert, by_copy. rewrite Hx, Hback. done.
Qed.

Lemma X14_constructor_failure_witness :
  EmplaceBack (E := throwing_copy_element) None v_1_2_3 = Throw v_1_2_3 [] ∧
  (in_range 1 v_1_2_3 = true →
   Emplace (E := throwing_copy_element) 1 None v_1_2_3 = Throw v_1_2_3 []) ∧
  (copy_throws (Element := throwing_copy_element) 13%Z = true →
   PushBack (E := throwing_copy_element) 13%Z v_1_2_3 = Throw v_1_2_3 [] ∧
   (in_range 1 v_1_2_3 = true →
    Insert (E := throwing_copy_element) 1 13%Z v_1_2_3 = Throw v_1_2_3 [])).
Proof.
  apply (X14_constructor_failure Z throwing_copy_element v_1_2_3 1%Z 13%Z).
  unfold Capacity. simpl. lia.
Defined.

(** X15: for a trivially copyable type, or at the last element for any
    type, [Erase] at a position of [[begin(), end())] followed by [Insert]
    (either overload) of the erased value at the same position gives back
    the elements and the size, in the same block: the capacity is
    unchanged. *)
Theorem X15_erase_then_insert :
  ∀ (T : Type) (E : Element T) (c : value_category) (v : Vector T) (pos : Z),
    invariant v →
    (0 ≤ pos < Z.of_nat (size_ v))%Z →
    is_trivially_copyable = true ∨ S (Z.to_nat pos) = size_ v →
    Forall (λ y, copy_throws y = false ∧ move_throws y = false ∧
                 move_assign_throws y = false) (values v) →
    ∃ v1 x v2 l2,
      Erase pos v = Done pos v1 [x] ∧
      Insert_of c pos x v1 = Done pos v2 l2 ∧
      invariant v2 ∧ Size v2 = Size v ∧ Capacity v2 = Capacity v ∧
      values v2 = values v.
Proof.
  intros T E c v pos Hinv Hpos Hassign Hnt. set (idx := Z.to_nat pos).
  destruct (Erase_ok pos v Hinv Hpos) as (v1 & x & Hers & Hx & Hinv1 & Hs1 & Hc1 & Hv1);
    [|done|].
  { apply Forall_drop. eapply Forall_impl; [exact Hnt|]. by intros y (_ & _ & ?). }
  fold idx in Hx, Hv1.
  pose proof (Forall_lookup_1 _ _ _ _ Hnt Hx) as (Hcx & Hmx & _).
  destruct (Emplace_ok pos x v1 Hinv1) as (v2 & l2 & Hins & Hinv2 & Hs2 & Hv2);
    [lia| |done| |].
  { rewrite Hv1. apply Forall_delete. eapply Forall_impl; [exact Hnt|].
    intros y (Hc & Hm & Ha). split; [|done]. unfold relocate_throws.
    by destruct relocate_by_move. }
  { destruct Hassign as [?|?]; [by left | right; right; lia]. }
  assert (idx < size_ v) as Hidx by lia.
  pose proof Hinv as (_ & Hle & _).
  exists v1, x, v2, l2. rewrite Insert_of_Emplace by (by destruct c).
  split_and!; try done.
  - unfold Size. lia.
  - rewrite (Emplace_Done_capacity _ _ _ _ _ _ Hins) by (apply in_range_true; lia).
    unfold Size, Capacity in *. rewrite bool_decide_eq_false_2 by lia. done.
  - fold idx in Hv2. rewrite Hv2, Hv1.
    assert (length (take idx (values v)) = idx) as Hlen
      by (rewrite length_take, values_length by done; lia).
    rewrite delete_take_drop.
    rewrite take_app_length', drop_app_length' by done.
    by apply take_drop_middle.
Qed.

Lemma X15_erase_then_insert_witness :
  (∃ v1 x v2 l2,
     Erase (E := int_element) 1 v_1_2_3 = Done 1%Z v1 [x] ∧
     Insert_of (E := int_element) rvalue 1 x v1 = Done 1%Z v2 l2 ∧
     invariant v2 ∧ Size v2 = Size v_1_2_3 ∧ Capacity v2 = Capacity v_1_2_3 ∧
     values v2 = values v_1_2_3) ∧
  (∃ v1 x v2 l2,
     Erase (E := class_element) 2 v_1_2_3 = Done 2%Z v1 [x] ∧
     Insert_of (E := class_element) lvalue 2 x v1 = Done 2%Z v2 l2 ∧
     invariant v2 ∧ Size v2 = Size v_1_2_3 ∧ Capacity v2 = Capacity v_1_2_3 ∧
     values v2 = values v_1_2_3).
Proof.
  split.
  - apply (X15_erase_then_insert Z int_element rvalue v_1_2_3 1%Z v_1_2_3_invariant);
      [simpl; lia | by left | repeat constructor].
  - apply (X15_erase_then_insert Z class_element lvalue v_1_2_3 2%Z v_1_2_3_invariant);
      [simpl; lia | by right | repeat constructor].
Defined.

(** X16: on a non-empty vector satisfying the invariant, [Erase] at the last
    element does exactly what [PopBack] does: same vector left, same object
    destroyed, for every element type. *)
Theorem X16_pop_back_is_erase_last :
  ∀ (T : Type) (E : Element T) (v : Vector T),
    invariant v →
    size_ v ≠ 0 →
    ∃ v' x, PopBack v = Done tt v' [x] ∧
      Erase (Z.of_nat (size_ v - 1)) v = Done (Z.of_nat (size_ v - 1)) v' [x].
Proof.
  intros T E v Hinv Hne. pose proof Hinv as (Hc & Hs & Hlive).
  destruct (invariant_read v (size_ v - 1) Hinv) as (x & Hx & _); [lia|].
  unfold PopBack, Erase. rewrite bool_decide_eq_false_2 by done.
  rewrite in_range_true by lia. rewrite Nat2Z.id.
  unfold RawMemory_plus. rewrite bool_decide_eq_true_2 by lia.
  rewrite (destroy_at_Some _ _ _ Hx).
  unfold std_move. rewrite bool_decide_eq_true_2 by lia.
  replace (size_ v - (size_ v - 1 + 1)) with 0 by lia. simpl.
  by eexists _, _.
Qed.

Lemma X16_pop_back_is_erase_last_witness :
  ∃ v' x, PopBack v_1_2_3 = Done tt v' [x] ∧
    Erase (E := int_element) (Z.of_nat (size_ v_1_2_3 - 1)) v_1_2_3 =
      Done (Z.of_nat (size_ v_1_2_3 - 1)) v' [x].
Proof.
  apply (X16_pop_back_is_erase_last Z int_element v_1_2_3 v_1_2_3_invariant).
  simpl. lia.
Defined.

(** X17: the destructor of a vector satisfying the invariant is defined and
    destroys exactly the elements of the vector, each once, front to back. *)
Theorem X17_destructor :
  ∀ (T : Type) (v : Vector T), invariant v → Vector_destroy v = Some (values v).
Proof. intros T v. apply Vector_destroy_ok. Qed.

Lemma X17_destructor_witness : Vector_destroy v_1_2_3 = Some (values v_1_2_3).
Proof. exact (X17_destructor Z v_1_2_3 v_1_2_3_invariant). Defined.

(** ** Assignments that throw part of the way *)

Section AssignThrows.
Context {T : Type} {E : Element T}.
Implicit Types (v : Vector T) (x : T).

Lemma copy_n_throw (src : list (option T)) n : ∀ first (dst : list (option T)) d_first k y,
  k < n →
  (∀ j, j < k →
     ∃ x, read_at src (first + j) = Some x ∧ copy_assign_throws x = false) →
  read_at src (first + k) = Some y → copy_assign_throws y = true →
  (∀ j, j ≤ k → is_Some (read_at dst (d_first + j))) →
  ∃ dst', copy_n src first n dst d_first = Throw dst' [] ∧
    length dst' = length dst ∧
    (∀ j, j < k → dst' !! (d_first + j) = src !! (first + j)) ∧
    (∀ i, ¬ (d_first ≤ i < d_first + k) → dst' !! i = dst !! i).
Proof.
  induction n as [|n IH]; intros first dst d_first k y Hk Hsrc Hy Hthrow Hdst; [lia|].
  pose proof (Hdst 0 ltac:(lia)) as Hd0. rewrite Nat.add_0_r in Hd0.
  pose proof (read_at_lt _ _ Hd0) as Hlt.
  simpl. destruct k as [|k].
  - rewrite Nat.add_0_r in Hy. rewrite Hy, assign_at_live, Hthrow by done. exists dst.
    split_and!; auto; intros; lia.
  - destruct (Hsrc 0) as (x & Hx & Hnt); [lia|]. rewrite Nat.add_0_r in Hx.
    rewrite Hx, assign_at_live, Hnt by done.
    destruct (IH (S first) (<[d_first := Some x]> dst) (S d_first) k y)
      as (dst' & -> & Hl & Hin & Hout).
    { lia. }
    { intros j Hj. replace (S first + j) with (first + S j) by lia. apply Hsrc. lia. }
    { by replace (S first + k) with (first + S k) by lia. }
    { done. }
    { intros j Hj. rewrite read_at_insert_ne by lia.
      replace (S d_first + j) with (d_first + S j) by lia. apply Hdst. lia. }
    rewrite length_insert in Hl. exists dst'. split_and!; auto.
    + intros [|j] Hj.
      * rewrite !Nat.add_0_r, Hout by lia. rewrite list_lookup_insert_eq by lia.
        symmetry. by apply read_at_Some.
      * replace (d_first + S j) with (S d_first + j) by lia.
        replace (first + S j) with (S first + j) by lia. apply Hin. lia.
    + intros i Hi. rewrite Hout by lia. apply list_lookup_insert_ne. lia.
Qed.

End AssignThrows.

(** X19: copy assignment on its in-place path (the source fits the target's
    capacity), when the copy assignment of element [k] of the source throws:
    the exception escapes with nothing destroyed; the target keeps its size,
    capacity and invariant, its first [k] elements are the source's and the
    others its own; the source is untouched. *)
Theorem X19_copy_assign_in_place_throws :
  ∀ (T : Type) (E : Element T) (σ : gmap nat (Vector T)) (this rhs : nat)
    (a b : Vector T) (k : nat) (y : T),
    this ≠ rhs →
    σ !! this = Some a → σ !! rhs = Some b →
    invariant a → invariant b →
    Size b ≤ Capacity a →
    k < size_ a →
    values b !! k = Some y →
    copy_assign_throws y = true →
    (∀ j z, j < k → values b !! j = Some z → copy_assign_throws z = false) →
    ∃ a', copy_assign this rhs σ = Throw (<[this := a']> σ) [] ∧
      <[this := a']> σ !! rhs = Some b ∧
      invariant a' ∧ Size a' = Size a ∧ Capacity a' = Capacity a ∧
      values a' = take k (values b) ++ drop k (values a).
Proof.
  intros T E σ this rhs a b k y Hne Ha Hb Hinva Hinvb Hfit Hka Hy Hthrow Hbefore.
  pose proof Hinva as (Hca & Hsa & Hlivea). pose proof Hinvb as (Hcb & Hsb & Hliveb).
  unfold Size, Capacity in *.
  rewrite values_lookup in Hy by done. case_decide as Hkb; [|done].
  unfold copy_assign. rewrite bool_decide_eq_true_2 by done. rewrite Ha, Hb.
  rewrite bool_decide_eq_false_2 by lia. unfold CopyFrom.
  destruct (copy_n_throw (buffer_ (data_ b)) (size_ a `min` size_ b) 0 (buffer_ (data_ a)) 0 k y)
    as (b' & -> & Hl & Hin & Hout); [lia | | done | done | |].
  { intros j Hj. destruct (invariant_read b j Hinvb) as (z & Hz & Hvz); [lia|].
    exists z. split; [done|]. by apply (Hbefore j). }
  { intros j Hj. apply Hlivea. lia. }
  assert (∀ j, j < k → b' !! j = buffer_ (data_ b) !! j) as Hin' by (intros j Hj; by apply (Hin j)).
  set (a' := set_block a b').
  assert (invariant a') as Hinv'.
  { split_and!; [simpl; lia|simpl; lia|]. intros i Hi. simpl in Hi. simpl. unfold read_at.
    destruct (decide (i < k)).
    - rewrite Hin' by done. apply Hliveb. lia.
    - rewrite Hout by lia. by apply Hlivea. }
  exists a'. split_and!; try done.
  - by rewrite lookup_insert_ne.
  - apply list_eq. intros i. rewrite values_lookup by done. simpl.
    assert (length (take k (values b)) = k) as Hlen
      by (rewrite length_take, values_length by done; lia).
    destruct (decide (i < k)).
    + rewrite lookup_app_l by lia. rewrite lookup_take_lt, values_lookup by done.
      rewrite !decide_True by lia. unfold read_at. by rewrite Hin'.
    + rewrite lookup_app_r by lia. rewrite Hlen, lookup_drop, values_lookup by done.
      replace (k + (i - k)) with i by lia. case_decide; [|done].
      unfold read_at. by rewrite Hout by lia.
Qed.

Lemma X19_copy_assign_in_place_throws_witness :
  ∃ a', copy_assign (E := throwing_assign_element) 1 2 store_123_113 =
          Throw (<[1 := a']> store_123_113) [] ∧
    <[1 := a']> store_123_113 !! 2 = Some v_1_13 ∧
    invariant a' ∧ Size a' = Size v_1_2_3 ∧ Capacity a' = Capacity v_1_2_3 ∧
    values a' = take 1 (values v_1_13) ++ drop 1 (values v_1_2_3).
Proof.
  apply (X19_copy_assign_in_place_throws Z throwing_assign_element store_123_113 1 2
           v_1_2_3 v_1_13 1 13%Z ltac:(lia) eq_refl eq_refl
           v_1_2_3_invariant v_1_13_invariant).
  - unfold Size, Capacity. simpl. lia.
  - simpl. lia.
  - reflexivity.
  - reflexivity.
  - intros [|j] z Hj Hz; [|lia]. vm_compute in Hz. injection Hz as <-. reflexivity.
Defined.

(** X20: for a trivially copyable type at any position of
    [[begin(), end()]], and for any type at [end()], when nothing throws,
    [Insert] (either overload) followed by [Erase] at the same position
    returns with the size and the elements the vector had, and the object
    [Erase] destroys is the one inserted. *)
Theorem X20_insert_then_erase :
  ∀ (T : Type) (E : Element T) (c : value_category) (v : Vector T) (pos : Z) (x : T),
    invariant v →
    (0 ≤ pos ≤ Z.of_nat (size_ v))%Z →
    is_trivially_copyable = true ∨ pos = Z.of_nat (size_ v) →
    Forall (λ y, relocate_throws y = false ∧ move_assign_throws y = false) (values v) →
    construct_throws c x = false →
    move_throws x = false →
    ∃ v1 l1 v2,
      Insert_of c pos x v = Done pos v1 l1 ∧
      Erase pos v1 = Done pos v2 [x] ∧
      invariant v2 ∧ Size v2 = Size v ∧ values v2 = values v.
Proof.
  intros T E c v pos x Hinv Hpos Hassign Hnt Hcx Hmx. rewrite Insert_of_Emplace by done.
  destruct (Emplace_ok pos x v Hinv Hpos Hnt Hmx) as (v1 & l1 & Hins & Hinv1 & Hs1 & Hv1).
  { destruct Hassign as [?|?]; [by left | by right; right]. }
  set (idx := Z.to_nat pos) in *.
  assert (length (take idx (values v)) = idx) as Hlen.
  { rewrite length_take, values_length by done. lia. }
  destruct (Erase_ok pos v1 Hinv1) as (v2 & y & Hers & Hy & Hinv2 & Hs2 & _ & Hv2).
  { lia. }
  { fold idx. rewrite Hv1, drop_app_ge by lia. rewrite Hlen.
    replace (S idx - idx) with 1 by lia. simpl. rewrite drop_0.
    apply Forall_drop. eapply Forall_impl; [exact Hnt|]. by intros z [_ ?]. }
  { destruct Hassign as [?|?]; [by left | right; lia]. }
  fold idx in Hy, Hv2.
  assert (y = x) as ->.
  { rewrite Hv1, lookup_app_r in Hy by lia. rewrite Hlen, Nat.sub_diag in Hy.
    by injection Hy. }
  exists v1, l1, v2. split_and!; try done.
  - unfold Size. lia.
  - rewrite Hv2, Hv1. rewrite <-Hlen at 1. by rewrite delete_middle, take_drop.
Qed.

Lemma X20_insert_then_erase_witness :
  (∃ v1 l1 v2,
     Insert_of (E := int_element) rvalue 1 9%Z v_1_2_3 = Done 1%Z v1 l1 ∧
     Erase (E := int_element) 1 v1 = Done 1%Z v2 [9%Z] ∧
     invariant v2 ∧ Size v2 = Size v_1_2_3 ∧ values v2 = values v_1_2_3) ∧
  (∃ v1 l1 v2,
     Insert_of (E := class_element) lvalue 2 9%Z v_1_13 = Done 2%Z v1 l1 ∧
     Erase (E := class_element) 2 v1 = Done 2%Z v2 [9%Z] ∧
     invariant v2 ∧ Size v2 = Size v_1_13 ∧ values v2 = values v_1_13).
Proof.
  split.
  - apply (X20_insert_then_erase Z int_element rvalue v_1_2_3 1%Z 9%Z v_1_2_3_invariant);
      [simpl; lia | by left | repeat constructor | reflexivity | reflexivity].
  - apply (X20_insert_then_erase Z class_element lvalue v_1_13 2%Z 9%Z v_1_13_invariant);
      [simpl; lia | by right | repeat constructor | reflexivity | reflexivity].
Defined.

(** X21: [Reserve] above the capacity with a count whose byte size
    [new_capacity * sizeof(T)] wraps in [size_t], when relocation does not
    throw.  The block obtained has [requested_slots new_capacity] slots.  If
    that is fewer than the elements, relocation runs past the block and the
    call has no defined result; otherwise the call returns with the size
    unchanged and the capacity reported as [new_capacity] over a block that
    is shorter, so the vector no longer satisfies the invariant. *)
Theorem X21_reserve_wrapped_count :
  ∀ (T : Type) (E : Element T) (v : Vector T) (new_capacity : nat),
    invariant v →
    Forall (λ y, relocate_throws y = false) (values v) →
    Capacity v < new_capacity →
    requested_slots new_capacity < new_capacity →
    (requested_slots new_capacity < size_ v → Reserve new_capacity v = UB) ∧
    (size_ v ≤ requested_slots new_capacity →
     ∃ v' l, Reserve new_capacity v = Done tt v' l ∧
       Size v' = Size v ∧ Capacity v' = new_capacity ∧
       length (buffer_ (data_ v')) = requested_slots new_capacity ∧
       ¬ invariant v').
Proof.
  intros T E v n Hinv Hnt Hcap Hwrap. unfold Reserve, Capacity in *.
  rewrite bool_decide_eq_false_2 by lia. split.
  - intros Hshort. rewrite SwapCopy_overflow; [done..|].
    simpl. by rewrite Allocate_length.
  - intros Hfit.
    destruct (SwapCopy_ok v (RawMemory_new n))
      as (v' & nd' & l & -> & Hs' & Hc' & Hl' & _); [done|done|..].
    { simpl. by rewrite Allocate_length. }
    simpl in Hc', Hl'. rewrite Allocate_length in Hl'.
    exists v', l. split_and!; try done.
    intros (Hc & _). lia.
Qed.

Lemma X21_reserve_wrapped_count_witness :
  Reserve (E := huge_element) 8 v_1_13 = UB ∧
  ∃ v' l, Reserve (E := huge_element) 9 Vector_default = Done tt v' l ∧
    Size v' = Size (T := Z) Vector_default ∧ Capacity v' = 9 ∧
    length (buffer_ (data_ v')) = requested_slots (E := huge_element) 9 ∧
    ¬ invariant v'.
Proof.
  split.
  - apply (X21_reserve_wrapped_count Z huge_element v_1_13 8 v_1_13_invariant);
      [repeat constructor | unfold Capacity; simpl; lia | vm_compute; lia | vm_compute; lia].
  - apply (X21_reserve_wrapped_count Z huge_element Vector_default 9 Vector_default_invariant);
      [constructor | unfold Capacity; simpl; lia | vm_compute; lia | vm_compute; lia].
Defined.
